(** * Brand-name evaluator: similarity detection and score aggregation

    A shallow embedding of [brandval/evaluator.py] (class [BrandEvaluator]).

    Modelling conventions.
    - Python [str] values are [string]s of ASCII characters; [str.lower],
      [str.title], [str.replace], [str.startswith] and the [in] substring test
      are written out below on that representation.
    - Python [float] and [int] scores are exact rationals ([Q]); equalities
      between scores are stated with [==] and comparisons with [Qle_bool].
    - A [dict] whose iteration order is irrelevant to the results (the domain
      map, the international map, the social map) is a [gmap]; the catalogue
      of known companies, whose insertion order decides how ties are ordered
      by the stable sort, is an association list.
    - External collaborators (the WHOIS library, the process environment, the
      language-model client) are function parameters; a call that may raise
      returns a [py_result].
    - Names follow the source.  Where two dataclasses share a field name the
      later one is prefixed ([er_name], [tm_matches]), and a parameter called
      [name] in the source is [nm] here, since [name] is the projection of
      [SimilarCompany]. *)

From Stdlib Require Import String Ascii List QArith Lia Lqa Sorted Permutation.
From stdpp Require Import base gmap strings list fin_maps.
Import ListNotations.

Local Open Scope string_scope.

(** ** Python string primitives *)

Definition is_upper (c : ascii) : bool :=
  let n := nat_of_ascii c in (65 <=? n)%nat && (n <=? 90)%nat.

Definition is_lower (c : ascii) : bool :=
  let n := nat_of_ascii c in (97 <=? n)%nat && (n <=? 122)%nat.

Definition lower_char (c : ascii) : ascii :=
  if is_upper c then ascii_of_nat (nat_of_ascii c + 32) else c.

Definition upper_char (c : ascii) : ascii :=
  if is_lower c then ascii_of_nat (nat_of_ascii c - 32) else c.

(** [s.lower()] *)
Fixpoint lower (s : string) : string :=
  match s with
  | EmptyString => EmptyString
  | String c s' => String (lower_char c) (lower s')
  end.

(** [s.title()]: a cased character is upper-cased when the previous character
    is not cased and lower-cased otherwise. *)
Fixpoint title_from (prev_cased : bool) (s : string) : string :=
  match s with
  | EmptyString => EmptyString
  | String c s' =>
      if is_upper c || is_lower c
      then String (if prev_cased then lower_char c else upper_char c)
                  (title_from true s')
      else String c (title_from false s')
  end.

Definition title (s : string) : string := title_from false s.

(** [s.startswith(p)] *)
Fixpoint startswith (s p : string) : bool :=
  match p, s with
  | EmptyString, _ => true
  | String _ _, EmptyString => false
  | String b p', String a s' => if Ascii.eqb a b then startswith s' p' else false
  end.

(** [s.endswith(p)] *)
Definition endswith (s p : string) : bool :=
  let n := String.length s in
  let k := String.length p in
  (k <=? n)%nat && String.eqb (substring (n - k) k s) p.

(** [p in s] for strings *)
Fixpoint contains (p s : string) : bool :=
  startswith s p ||
  match s with
  | EmptyString => false
  | String _ s' => contains p s'
  end.

(** [c in s] for one character [c] *)
Fixpoint char_in (c : ascii) (s : string) : bool :=
  match s with
  | EmptyString => false
  | String a s' => Ascii.eqb a c || char_in c s'
  end.

(** [s.replace(old, new)] for a non-empty [old]: occurrences are replaced
    left to right without overlap.  [skip] counts the characters of the
    occurrence just replaced that are still to be dropped. *)
Fixpoint replace_from (skip : nat) (old new s : string) : string :=
  match s with
  | EmptyString => EmptyString
  | String c s' =>
      match skip with
      | S k => replace_from k old new s'
      | O =>
          if startswith s old
          then new +:+ replace_from (String.length old - 1) old new s'
          else String c (replace_from 0 old new s')
      end
  end.

Definition replace (old new s : string) : string := replace_from 0 old new s.

(** ** Numbers *)

Definition Q_of_nat (n : nat) : Q := inject_Z (Z.of_nat n).

(** [x > y] on scores *)
Definition Qgtb (x y : Q) : bool := negb (Qle_bool x y).

(** ** Results of calls that may raise *)

(** Exceptions derived from Python's [Exception]; the payload is [str(e)]. *)
Inductive exception : Type :=
| TimeoutError (msg : string)
| JSONDecodeError (msg : string)
| AuthenticationError (msg : string)
| KeyError (msg : string)
| OtherException (msg : string).

Definition exception_str (e : exception) : string :=
  match e with
  | TimeoutError m | JSONDecodeError m | AuthenticationError m
  | KeyError m | OtherException m => m
  end.

Inductive py_result (A : Type) : Type :=
| Return (a : A)
| Raise (e : exception).
Arguments Return {A} a.
Arguments Raise {A} e.

(** ** Data model *)

Record SimilarCompany := {
  name : string;
  similarity_score : Q;
  industry : string;
  reason : string
}.

Record SimilarCompaniesResult := {
  matches : list SimilarCompany;
  confusion_risk : string
}.

Record TrademarkResult := {
  risk_level : string;
  tm_matches : list string
}.

Record PronunciationResult := {
  score : Q;
  syllables : nat;
  spelling_difficulty : string
}.

Record PerceptionResult := {
  evokes : string;
  industry_association : list string;
  memorability : string;
  mission_alignment : option Q
}.

(** One value of the international map: [{"has_issue": ..., "meaning": ...}] *)
Record intl_entry := {
  has_issue : bool;
  meaning : option string
}.

Record EvaluationResult := {
  er_name : string;
  overall_score : Q;
  domain_score : Q;
  social_score : Q;
  trademark_score : Q;
  pronunciation_score : Q;
  international_score : Q;
  similar_companies_score : Q;
  domains : gmap string bool;
  social : gmap string bool;
  trademark : TrademarkResult;
  pronunciation : PronunciationResult;
  international : gmap string intl_entry;
  perception : PerceptionResult;
  similar_companies : SimilarCompaniesResult
}.

(** ** StringMetrics and SimilarityScorer *)

(** [enumerate(s)], starting at index [i] *)
Fixpoint enumerate_from (i : nat) (s : string) : list (nat * ascii) :=
  match s with
  | EmptyString => []
  | String c s' => (i, c) :: enumerate_from (S i) s'
  end.

Definition enumerate (s : string) : list (nat * ascii) := enumerate_from 0 s.

(** [int(c1 != c2)] *)
Definition char_differs (c1 c2 : ascii) : nat :=
  if Ascii.eqb c1 c2 then 0 else 1.

(** One iteration of the inner loop of [_levenshtein_distance]:
    [curr_row.append(min(insertions, deletions, substitutions))]. *)
Definition lev_cell (c1 : ascii) (prev_row curr_row : list nat)
    (jc : nat * ascii) : list nat :=
  let '(j, c2) := jc in
  let insertions := nth (j + 1) prev_row 0 + 1 in
  let deletions := nth j curr_row 0 + 1 in
  let substitutions := nth j prev_row 0 + char_differs c1 c2 in
  curr_row ++ [Nat.min insertions (Nat.min deletions substitutions)].

(** One iteration of the outer loop: the row for character [c1] at index [i]. *)
Definition lev_row (s2 : string) (prev_row : list nat) (ic : nat * ascii)
    : list nat :=
  let '(i, c1) := ic in
  fold_left (lev_cell c1 prev_row) (enumerate s2) [i + 1].

(** The body of [_levenshtein_distance] once [len(s1) >= len(s2)] holds. *)
Definition lev_rows (s1 s2 : string) : nat :=
  if (String.length s2 =? 0)%nat then String.length s1
  else
    let prev_row := seq 0 (String.length s2 + 1) in
    List.last (fold_left (lev_row s2) (enumerate s1) prev_row) 0.

(** [_levenshtein_distance]: the single recursive call only swaps the
    arguments so that the longer string comes first. *)
Definition _levenshtein_distance (s1 s2 : string) : nat :=
  if (String.length s1 <? String.length s2)%nat then lev_rows s2 s1
  else lev_rows s1 s2.

Definition replacements : list (string * string) :=
  [ ("ph", "f"); ("ck", "k"); ("gh", "g"); ("kn", "n"); ("wr", "r");
    ("wh", "w"); ("ee", "i"); ("ea", "i"); ("oo", "u"); ("ou", "u");
    ("ai", "a"); ("ay", "a"); ("ey", "i"); ("ie", "i"); ("y", "i") ].

(** ["".join(c for c in s if c not in "aeiou")] *)
Fixpoint drop_vowels (s : string) : string :=
  match s with
  | EmptyString => EmptyString
  | String c s' =>
      if char_in c "aeiou" then drop_vowels s' else String c (drop_vowels s')
  end.

Definition _simplify_phonetic (nm : string) : string :=
  let nm := lower nm in
  let nm := fold_left (fun acc '(old, new) => replace old new acc)
                      replacements nm in
  match nm with
  | String c0 (String _ _ as rest) => String c0 (drop_vowels rest)
  | _ => nm
  end.

(** The loop computing [prefix_len] in [_calculate_similarity]. *)
Fixpoint prefix_len (name1 name2 : string) : nat :=
  match name1, name2 with
  | String a s1, String b s2 =>
      if Ascii.eqb a b then S (prefix_len s1 s2) else 0
  | _, _ => 0
  end.

(** The phonetic component of [_calculate_similarity]: the conditional
    expression first, then the [if] statement that follows it. *)
Definition phonetic_similarity (name1 name2 : string) : Q :=
  let phonetic1 := _simplify_phonetic name1 in
  let phonetic2 := _simplify_phonetic name2 in
  let phonetic_similarity :=
    if String.eqb phonetic1 phonetic2 then 1.0%Q else 0.0%Q in
  if startswith phonetic1 phonetic2 || startswith phonetic2 phonetic1
  then 0.7%Q
  else phonetic_similarity.

(** The Levenshtein component of [_calculate_similarity]. *)
Definition edit_similarity (name1 name2 : string) : Q :=
  let edit_distance := _levenshtein_distance name1 name2 in
  let max_len := Nat.max (String.length name1) (String.length name2) in
  if (0 <? max_len)%nat
  then (1 - Q_of_nat edit_distance / Q_of_nat max_len)%Q
  else 1%Q.

(** The shared-prefix component of [_calculate_similarity]. *)
Definition prefix_similarity (name1 name2 : string) : Q :=
  let max_len := Nat.max (String.length name1) (String.length name2) in
  if (0 <? max_len)%nat
  then (Q_of_nat (prefix_len name1 name2) / Q_of_nat max_len)%Q
  else 0%Q.

Definition _calculate_similarity (name1 name2 : string) : Q :=
  (edit_similarity name1 name2 * 0.4
   + phonetic_similarity name1 name2 * 0.4
   + prefix_similarity name1 name2 * 0.2)%Q.

Definition _get_similarity_reason (name1 name2 : string) : string :=
  if String.eqb name1 name2 then "identical"
  else if startswith name1 name2 || startswith name2 name1 then "shares prefix"
  else if String.eqb (_simplify_phonetic name1) (_simplify_phonetic name2)
  then "sounds similar"
  else
    let edit_dist := _levenshtein_distance name1 name2 in
    if (edit_dist <=? 2)%nat then "very close spelling"
    else if (edit_dist <=? 4)%nat then "similar spelling"
    else "partially similar".

(** ** KnownEntityCatalog *)

(** [d[k] = v] on an insertion-ordered dictionary: an existing key keeps its
    position and takes the new value, a new key goes to the end. *)
Fixpoint dict_set {V : Type} (k : string) (v : V) (d : list (string * V))
    : list (string * V) :=
  match d with
  | [] => [(k, v)]
  | (k', v') :: d' =>
      if String.eqb k' k then (k', v) :: d' else (k', v') :: dict_set k v d'
  end.

(** A dictionary display [{k1: v1, k2: v2, ...}], evaluated left to right. *)
Definition dict_literal {V : Type} (items : list (string * V))
    : list (string * V) :=
  fold_left (fun d '(k, v) => dict_set k v d) items [].

Definition known_companies : list (string * string) :=
  Eval vm_compute in dict_literal
  [ ("stripe", "payments"); ("shopify", "e-commerce");
    ("slack", "communication"); ("zoom", "video conferencing");
    ("notion", "productivity"); ("figma", "design"); ("canva", "design");
    ("asana", "project management"); ("trello", "project management");
    ("airtable", "database"); ("hubspot", "marketing");
    ("mailchimp", "email marketing"); ("twilio", "communication APIs");
    ("plaid", "fintech"); ("brex", "fintech"); ("ramp", "fintech");
    ("gusto", "HR/payroll"); ("rippling", "HR"); ("deel", "HR");
    ("lattice", "HR"); ("lever", "recruiting"); ("greenhouse", "recruiting");
    ("datadog", "monitoring"); ("snowflake", "data"); ("databricks", "data");
    ("confluent", "data streaming"); ("vercel", "hosting");
    ("netlify", "hosting"); ("supabase", "database"); ("firebase", "backend");
    ("mongodb", "database"); ("elastic", "search"); ("algolia", "search");
    ("auth0", "authentication"); ("okta", "identity");
    ("cloudflare", "infrastructure"); ("fastly", "CDN");
    ("segment", "analytics"); ("amplitude", "analytics");
    ("mixpanel", "analytics"); ("intercom", "customer support");
    ("zendesk", "customer support"); ("freshworks", "customer support");
    ("calendly", "scheduling"); ("loom", "video"); ("miro", "collaboration");
    ("linear", "project management"); ("monday", "project management");
    ("clickup", "project management"); ("anthropic", "AI"); ("openai", "AI");
    ("cohere", "AI"); ("stability", "AI"); ("midjourney", "AI");
    ("jasper", "AI"); ("copy.ai", "AI"); ("grammarly", "writing");
    ("notion", "productivity"); ("coda", "productivity");
    ("airtable", "productivity") ].

(** ** SimilarCompanyFinder *)

(** [l.sort(key=lambda x: x.similarity_score, reverse=True)].  Python's sort
    is stable also with [reverse=True], so the result is the unique
    rearrangement in non-increasing score order that keeps elements of equal
    score in their original order: an element is inserted in front of the
    first element whose score is not strictly greater. *)
Fixpoint insert_desc (x : SimilarCompany) (l : list SimilarCompany)
    : list SimilarCompany :=
  match l with
  | [] => [x]
  | y :: l' =>
      if Qgtb (similarity_score y) (similarity_score x)
      then y :: insert_desc x l'
      else x :: l
  end.

Definition sort_by_score_desc (l : list SimilarCompany) : list SimilarCompany :=
  fold_right insert_desc [] l.

(** The risk ladder at the end of [_find_similar_static]. *)
Definition static_confusion_risk (matches : list SimilarCompany) : string :=
  match matches with
  | [] => "low"
  | _ =>
      if existsb (fun m => Qgtb (similarity_score m) 0.8%Q) matches then "high"
      else if existsb (fun m => Qgtb (similarity_score m) 0.6%Q) matches
      then "medium"
      else "low"
  end.

(** The body of the loop over [known_companies.items()]. *)
Definition static_candidate (name_lower : string) (entry : string * string)
    : list SimilarCompany :=
  let '(company, industry) := entry in
  let similarity := _calculate_similarity name_lower company in
  if Qgtb similarity 0.5%Q
  then [ {| name := title company;
            similarity_score := similarity;
            industry := industry;
            reason := _get_similarity_reason name_lower company |} ]
  else [].

Definition _find_similar_static (nm : string) : SimilarCompaniesResult :=
  let name_lower := lower nm in
  let matches := flat_map (static_candidate name_lower) known_companies in
  let matches := sort_by_score_desc matches in
  let matches := firstn 5 matches in
  {| matches := matches; confusion_risk := static_confusion_risk matches |}.

(** One iteration of either loop of [_merge_similar_results]; the state is
    [(seen_names, merged_matches)]. *)
Definition merge_step (st : gset string * list SimilarCompany)
    (m : SimilarCompany) : gset string * list SimilarCompany :=
  let '(seen_names, merged_matches) := st in
  let name_lower := lower (name m) in
  if decide (name_lower ∈ seen_names)
  then st
  else ({[ name_lower ]} ∪ seen_names, (merged_matches ++ [m])%list).

Definition risk_order : gmap string nat :=
  <["high" := 2%nat]> (<["medium" := 1%nat]> (<["low" := 0%nat]> ∅)).

Definition _merge_similar_results (static llm : SimilarCompaniesResult)
    : SimilarCompaniesResult :=
  let st := (∅, []) in
  let st := fold_left merge_step (matches llm) st in
  let st := fold_left merge_step (matches static) st in
  let merged_matches := sort_by_score_desc (snd st) in
  let merged_matches := firstn 5 merged_matches in
  let risk :=
    if (default 0%nat (risk_order !! confusion_risk static)
        <? default 0%nat (risk_order !! confusion_risk llm))%nat
    then confusion_risk llm
    else confusion_risk static in
  {| matches := merged_matches; confusion_risk := risk |}.

(** Truth value of [os.environ.get(key)]: set and not the empty string. *)
Definition env_truthy (environ : gmap string string) (key : string) : bool :=
  match environ !! key with
  | Some v => negb (String.eqb v "")
  | None => false
  end.

(** [find_similar_companies].  [llm] stands for [_find_similar_with_llm]
    (client construction, request and JSON decoding).  The result pairs what
    the call returns or raises with the lines it prints. *)
Definition find_similar_companies (environ : gmap string string)
    (llm : string -> py_result SimilarCompaniesResult) (nm : string)
    : py_result SimilarCompaniesResult * list string :=
  let static_result := _find_similar_static nm in
  if env_truthy environ "ANTHROPIC_API_KEY" then
    match llm nm with
    | Return llm_result =>
        (Return (_merge_similar_results static_result llm_result), [])
    | Raise e =>
        (Return static_result,
         ["LLM similar companies search failed: " +:+ exception_str e])
    end
  else (Return static_result, []).

(** ** Sub-evaluations *)

Definition DEFAULT_TLDS : list string := [".com"; ".io"; ".co"; ".ai"; ".app"].

Definition DEFAULT_PLATFORMS : list string :=
  ["twitter"; "instagram"; "linkedin"; "tiktok"; "github"].

(** What [whois.whois(domain)] yields: the two attributes the code reads. *)
Record whois_entry := {
  domain_name : option string;
  creation_date : option string
}.

(** [whois_lookup]: [None] when the lookup raises or the record carries no
    domain name, otherwise the registration record. *)
Definition whois_lookup (whois : string -> py_result whois_entry)
    (domain : string) : option (string * option string) :=
  match whois domain with
  | Return w =>
      match domain_name w with
      | Some d => if String.eqb d "" then None else Some (d, creation_date w)
      | None => None
      end
  | Raise _ => None
  end.

Definition check_domains (whois : string -> py_result whois_entry)
    (nm : string) : gmap string bool :=
  let name_lower := lower nm in
  fold_left
    (fun (result : gmap string bool) tld =>
       let domain := name_lower +:+ tld in
       let info := whois_lookup whois domain in
       <[tld := bool_decide (info = None)]> result)
    DEFAULT_TLDS ∅.

Definition check_social (nm : string) : gmap string bool :=
  list_to_map (map (fun platform => (platform, true)) DEFAULT_PLATFORMS).

Definition check_trademark (nm : string) : TrademarkResult :=
  {| risk_level := "low"; tm_matches := [] |}.

(** The loop of [_count_syllables]; the state is [(count, prev_was_vowel)]. *)
Definition syllable_step (st : nat * bool) (char : ascii) : nat * bool :=
  let '(count, prev_was_vowel) := st in
  let is_vowel := char_in char "aeiouy" in
  (if is_vowel && negb prev_was_vowel then count + 1 else count, is_vowel)%nat.

Definition _count_syllables (word : string) : nat :=
  let word := lower word in
  let count := fst (fold_left syllable_step (list_ascii_of_string word)
                              (0%nat, false)) in
  let count :=
    if endswith word "e" && (1 <? count)%nat then count - 1 else count in
  Nat.max 1 count.

Definition _is_phonetic (nm : string) : bool :=
  let unusual := ["ph"; "gh"; "ough"; "tion"; "sion"; "xc"; "cq"] in
  negb (existsb (fun u => contains u (lower nm)) unusual).

Definition difficult_patterns : list string := ["xw"; "zx"; "ptl"; "tch"; "sch"].

Definition base_score_of (syllables : nat) : Q :=
  (if (syllables <=? 2)%nat then 9.0
   else if (syllables <=? 3)%nat then 7.0
   else if (syllables <=? 4)%nat then 5.0
   else 3.0)%Q.

Definition Qmax (x y : Q) : Q := if Qle_bool y x then x else y.
Definition Qmin (x y : Q) : Q := if Qle_bool x y then x else y.

Definition analyze_pronunciation (nm : string) : PronunciationResult :=
  let syllables := _count_syllables nm in
  let base_score := base_score_of syllables in
  let base_score :=
    fold_left
      (fun (base_score : Q) pattern =>
         if contains pattern (lower nm) then (base_score - 1.5)%Q
         else base_score)
      difficult_patterns base_score in
  let spelling :=
    if _is_phonetic nm then "easy"
    else if existsb (fun c => contains c (lower nm)) ["ph"; "gh"; "ough"]
    then "hard"
    else "medium" in
  {| score := Qmax 0%Q (Qmin 10%Q base_score);
     syllables := syllables;
     spelling_difficulty := spelling |}.

Definition score_pronunciation (nm : string) : Q :=
  score (analyze_pronunciation nm).

Definition languages : list string :=
  ["spanish"; "french"; "german"; "mandarin"; "japanese"; "portuguese";
   "arabic"].

Definition problematic : gmap string (gmap string string) :=
  <["nova" := {["spanish" := "doesn't go (no va)"]}]>
  (<["fart" := {["scandinavian" := "speed"]}]>
  (<["mist" := {["german" := "manure/dung"]}]> ∅)).

Definition check_international (nm : string) : gmap string intl_entry :=
  let name_lower := lower nm in
  fold_left
    (fun (result : gmap string intl_entry) lang =>
       let issue :=
         match problematic !! name_lower with
         | Some by_lang => by_lang !! lang
         | None => None
         end in
       <[lang := {| has_issue := bool_decide (issue ≠ None);
                   meaning := issue |}]> result)
    languages ∅.

(** [bool(mission)] for an optional string *)
Definition opt_truthy (o : option string) : bool :=
  match o with
  | Some s => negb (String.eqb s "")
  | None => false
  end.

(** [analyze_perception].  [personas] stands for
    [brandval.perception.analyze_with_personas]. *)
Definition analyze_perception (environ : gmap string string)
    (personas : string -> option string -> nat -> py_result PerceptionResult)
    (nm : string) (mission : option string)
    : PerceptionResult * list string :=
  let fallback :=
    {| evokes := "professional, modern";
       industry_association := ["technology"; "business"];
       memorability := "high";
       mission_alignment := if opt_truthy mission then Some 7.0%Q else None |} in
  if env_truthy environ "ANTHROPIC_API_KEY" then
    match personas nm mission 5%nat with
    | Return analysis =>
        ({| evokes := evokes analysis;
            industry_association := industry_association analysis;
            memorability := memorability analysis;
            mission_alignment := mission_alignment analysis |}, [])
    | Raise e =>
        (fallback, ["AI perception analysis failed: " +:+ exception_str e])
    end
  else (fallback, []).

(** ** DimensionScorers *)

(** [domains.get(k)] used as a condition *)
Definition get_truthy (d : gmap string bool) (k : string) : bool :=
  default false (d !! k).

Definition _calc_domain_score (domains : gmap string bool) : Q :=
  if decide (domains = ∅) then 0%Q
  else
    let score : Q := (if get_truthy domains ".com" then 50 else 0)%Q in
    let other_tlds :=
      filter (fun tld => tld ≠ ".com") (map fst (map_to_list domains)) in
    let available_others :=
      length (filter (fun tld => get_truthy domains tld = true) other_tlds) in
    match other_tlds with
    | [] => score
    | _ => (score
            + (Q_of_nat available_others / Q_of_nat (length other_tlds)) * 50)%Q
    end.

Definition _calc_social_score (social : gmap string bool) : Q :=
  if decide (social = ∅) then 0%Q
  else
    let available :=
      length (filter (fun v => v = true) (map snd (map_to_list social))) in
    ((Q_of_nat available / Q_of_nat (size social)) * 100)%Q.

Definition _calc_trademark_score (trademark : TrademarkResult) : Q :=
  (if String.eqb (risk_level trademark) "low" then 100
   else if String.eqb (risk_level trademark) "medium" then 50
   else 10)%Q.

Definition _calc_international_score (international : gmap string intl_entry)
    : Q :=
  if decide (international = ∅) then 100%Q
  else
    let issues :=
      length (filter (fun v => has_issue v = true)
                     (map snd (map_to_list international))) in
    Qmax 0%Q (100 - Q_of_nat issues * 20)%Q.

Definition _calc_similar_companies_score (similar : SimilarCompaniesResult)
    : Q :=
  match matches similar with
  | [] => 100%Q
  | _ =>
      (if String.eqb (confusion_risk similar) "high" then 20
       else if String.eqb (confusion_risk similar) "medium" then 60
       else 85)%Q
  end.

(** ** EvaluationAggregator *)

(** The external collaborators of one evaluation. *)
Record collaborators := {
  environ : gmap string string;
  whois : string -> py_result whois_entry;
  llm_similar : string -> py_result SimilarCompaniesResult;
  personas : string -> option string -> nat -> py_result PerceptionResult
}.

(** [evaluate]: what the call returns or raises, and the lines it prints. *)
Definition evaluate (ext : collaborators) (nm : string)
    (mission : option string) : py_result EvaluationResult * list string :=
  let domains := check_domains (whois ext) nm in
  let social := check_social nm in
  let trademark := check_trademark nm in
  let pronunciation := analyze_pronunciation nm in
  let international := check_international nm in
  let '(perception, out1) :=
    analyze_perception (environ ext) (personas ext) nm mission in
  match find_similar_companies (environ ext) (llm_similar ext) nm with
  | (Raise e, out2) => (Raise e, (out1 ++ out2)%list)
  | (Return similar_companies, out2) =>
      let domain_score := _calc_domain_score domains in
      let social_score := _calc_social_score social in
      let trademark_score := _calc_trademark_score trademark in
      let pronunciation_score := (score pronunciation * 10)%Q in
      let international_score := _calc_international_score international in
      let similar_companies_score :=
        _calc_similar_companies_score similar_companies in
      let overall_score :=
        (domain_score * 0.20
         + social_score * 0.10
         + trademark_score * 0.20
         + pronunciation_score * 0.15
         + international_score * 0.15
         + similar_companies_score * 0.20)%Q in
      (Return
         {| er_name := nm;
            overall_score := overall_score;
            domain_score := domain_score;
            social_score := social_score;
            trademark_score := trademark_score;
            pronunciation_score := pronunciation_score;
            international_score := international_score;
            similar_companies_score := similar_companies_score;
            domains := domains;
            social := social;
            trademark := trademark;
            pronunciation := pronunciation;
            international := international;
            perception := perception;
            similar_companies := similar_companies |},
       (out1 ++ out2)%list)
  end.

(** ** The [namecast/evaluator.py] variant

    [namecast/evaluator.py] repeats [check_domains], [check_trademark],
    [analyze_pronunciation], [check_international], [analyze_perception] and
    the domain, trademark, international and similar-company scorers
    verbatim; those are shared with the definitions above.  It differs in the
    social check, the social scorer and [find_similar_companies], which has no
    static pass. *)
Module Namecast.

Record SocialHandleResult := {
  platform : string;
  exact_available : bool;
  best_alternative : option string;
  alternatives_checked : list string
}.

(** A value of the social map: a [SocialHandleResult], or a plain [bool]
    in the older format that [_calc_social_score] still accepts. *)
Inductive social_value : Type :=
| Handle (r : SocialHandleResult)
| LegacyBool (b : bool).

Record EvaluationResult := {
  er_name : string;
  overall_score : Q;
  domain_score : Q;
  social_score : Q;
  trademark_score : Q;
  pronunciation_score : Q;
  international_score : Q;
  similar_companies_score : Q;
  domains : gmap string bool;
  social : gmap string social_value;
  trademark : TrademarkResult;
  pronunciation : PronunciationResult;
  international : gmap string intl_entry;
  perception : PerceptionResult;
  similar_companies : SimilarCompaniesResult
}.

(** [s.rsplit(sep, 1)] when [sep] occurs in [s]: the parts before and after
    the last occurrence; [None] when [sep not in s]. *)
Fixpoint rsplit1 (sep : ascii) (s : string) : option (string * string) :=
  match s with
  | EmptyString => None
  | String c s' =>
      match rsplit1 sep s' with
      | Some (base, tld) => Some (String c base, tld)
      | None => if Ascii.eqb c sep then Some (EmptyString, s') else None
      end
  end.

(** The loop removing duplicates; the state is [(seen, unique)]. *)
Definition unique_step (nm : string) (st : gset string * list string)
    (alt : string) : gset string * list string :=
  let '(seen, unique) := st in
  if bool_decide (alt ∉ seen) && negb (String.eqb alt nm)
  then ({[ alt ]} ∪ seen, (unique ++ [alt])%list)
  else st.

Definition _generate_handle_alternatives (nm : string)
    (planned_domain : option string) : list string :=
  let from_domain :=
    if opt_truthy planned_domain then
      let domain :=
        replace "http://" "" (replace "https://" "" (default "" planned_domain)) in
      match rsplit1 "."%char domain with
      | Some (base, tld) =>
          [ base +:+ tld; base +:+ "_" +:+ tld; base +:+ "." +:+ tld;
            "get" +:+ base; base +:+ "hq"; base +:+ "app" ]
      | None => []
      end
    else [] in
  let alternatives :=
    (from_domain ++
     [ nm +:+ "hq"; nm +:+ "app"; "get" +:+ nm; "try" +:+ nm; "use" +:+ nm;
       nm +:+ "_"; "_" +:+ nm; nm +:+ "io"; nm +:+ "ai"; "the" +:+ nm;
       nm +:+ "official" ])%list in
  firstn 10 (snd (fold_left (unique_step nm) alternatives (∅, []))).

Definition check_social (nm : string) (planned_domain : option string)
    : gmap string social_value :=
  let name_lower := lower nm in
  let alternatives := _generate_handle_alternatives name_lower planned_domain in
  fold_left
    (fun (results : gmap string social_value) platform =>
       <[platform :=
           Handle {| platform := platform;
                     exact_available := true;
                     best_alternative := head alternatives;
                     alternatives_checked := name_lower :: alternatives |}]>
         results)
    DEFAULT_PLATFORMS ∅.

Definition find_similar_companies (environ : gmap string string)
    (llm : string -> py_result SimilarCompaniesResult) (nm : string)
    : py_result SimilarCompaniesResult * list string :=
  let fallback := {| matches := []; confusion_risk := "low" |} in
  if env_truthy environ "ANTHROPIC_API_KEY" then
    match llm nm with
    | Return llm_result => (Return llm_result, [])
    | Raise e =>
        (Return fallback,
         ["LLM similar companies search failed: " +:+ exception_str e])
    end
  else (Return fallback, []).

(** The points one platform adds to [total_score]. *)
Definition social_points (result : social_value) : Q :=
  match result with
  | Handle r =>
      if exact_available r then 100%Q
      else if opt_truthy (best_alternative r) then 70%Q
      else 0%Q
  | LegacyBool b => if b then 100%Q else 0%Q
  end.

Definition _calc_social_score (social : gmap string social_value) : Q :=
  if decide (social = ∅) then 0%Q
  else
    let total_score :=
      fold_left (fun (total_score : Q) result =>
                   (total_score + social_points result)%Q)
                (map snd (map_to_list social)) 0%Q in
    (total_score / Q_of_nat (size social))%Q.

Definition evaluate (ext : collaborators) (nm : string)
    (mission planned_domain : option string)
    : py_result EvaluationResult * list string :=
  let domains := check_domains (whois ext) nm in
  let social := check_social nm planned_domain in
  let trademark := check_trademark nm in
  let pronunciation := analyze_pronunciation nm in
  let international := check_international nm in
  let '(perception, out1) :=
    analyze_perception (environ ext) (personas ext) nm mission in
  match find_similar_companies (environ ext) (llm_similar ext) nm with
  | (Raise e, out2) => (Raise e, (out1 ++ out2)%list)
  | (Return similar_companies, out2) =>
      let domain_score := _calc_domain_score domains in
      let social_score := _calc_social_score social in
      let trademark_score := _calc_trademark_score trademark in
      let pronunciation_score := (score pronunciation * 10)%Q in
      let international_score := _calc_international_score international in
      let similar_companies_score :=
        _calc_similar_companies_score similar_companies in
      let overall_score :=
        (domain_score * 0.20
         + social_score * 0.10
         + trademark_score * 0.20
         + pronunciation_score * 0.15
         + international_score * 0.15
         + similar_companies_score * 0.20)%Q in
      (Return
         {| er_name := nm;
            overall_score := overall_score;
            domain_score := domain_score;
            social_score := social_score;
            trademark_score := trademark_score;
            pronunciation_score := pronunciation_score;
            international_score := international_score;
            similar_companies_score := similar_companies_score;
            domains := domains;
            social := social;
            trademark := trademark;
            pronunciation := pronunciation;
            international := international;
            perception := perception;
            similar_companies := similar_companies |},
       (out1 ++ out2)%list)
  end.

End Namecast.

(** The overall score as the specification writes it. *)
Definition weighted_overall (d s t p i c : Q) : Q :=
  (0.20 * d + 0.10 * s + 0.20 * t + 0.15 * p + 0.15 * i + 0.20 * c)%Q.

(** ** Reference definitions for the stated properties *)

(** The domain map over the default TLDs in which [tld] is available exactly
    when [avail tld] holds. *)
Definition domains_of (avail : string -> bool) : gmap string bool :=
  list_to_map (map (fun tld => (tld, avail tld)) DEFAULT_TLDS).

(** The flagged entries of an international map. *)
Definition flagged (r : gmap string intl_entry) : gmap string intl_entry :=
  filter (fun kv : string * intl_entry => has_issue (snd kv) = true) r.

(** [s.count(p)] for a non-empty [p]: occurrences counted left to right
    without overlap. *)
Fixpoint count_from (skip : nat) (p s : string) : nat :=
  match s with
  | EmptyString => 0
  | String _ s' =>
      match skip with
      | S k => count_from k p s'
      | O =>
          if startswith s p
          then S (count_from (String.length p - 1) p s')
          else count_from 0 p s'
      end
  end.

Definition count_occurrences (p s : string) : nat := count_from 0 p s.

(** The pronunciation score with one penalty per occurrence of a difficult
    cluster, repeated occurrences of one cluster included. *)
Definition score_per_occurrence (nm : string) : Q :=
  let occurrences :=
    fold_right Nat.add 0%nat
      (map (fun p => count_occurrences p (lower nm)) difficult_patterns) in
  Qmax 0%Q (Qmin 10%Q (base_score_of (_count_syllables nm)
                       - 1.5 * Q_of_nat occurrences)%Q).

(** The number of difficult clusters that occur at least once. *)
Definition clusters_present (nm : string) : nat :=
  length (List.filter (fun p => contains p (lower nm)) difficult_patterns).

(** The pronunciation score with one penalty per difficult cluster present. *)
Definition score_per_cluster (nm : string) : Q :=
  Qmax 0%Q (Qmin 10%Q (base_score_of (_count_syllables nm)
                       - 1.5 * Q_of_nat (clusters_present nm))%Q).

(** [a] may stand before [b] in a list ordered by non-increasing score. *)
Definition score_ge (a b : SimilarCompany) : Prop :=
  (similarity_score b <= similarity_score a)%Q.

(** Some match of the list scores strictly above the threshold. *)
Definition some_above (threshold : Q) (l : list SimilarCompany) : Prop :=
  exists m, In m l /\ (threshold < similarity_score m)%Q.

(** *** Reconciliation, as the specification words it *)

(** The key under which matches are deduplicated. *)
Definition lower_name (m : SimilarCompany) : string := lower (name m).

Definition same_lower_name (m m' : SimilarCompany) : bool :=
  String.eqb (lower_name m) (lower_name m').

(** A list deduplicated by lower-cased name, first occurrence wins: the head
    is kept, and every later match with the head's key is dropped. *)
Fixpoint dedup_first (l : list SimilarCompany) : list SimilarCompany :=
  match l with
  | [] => []
  | m :: l' =>
      m :: List.filter (fun m' => negb (same_lower_name m m')) (dedup_first l')
  end.

(** The lower-cased name of [m] is already present in [merged]. *)
Definition present (merged : list SimilarCompany) (m : SimilarCompany) : bool :=
  existsb (same_lower_name m) merged.

(** Appending each match of [extra] whose lower-cased name is not already
    present. *)
Definition append_absent (merged extra : list SimilarCompany)
    : list SimilarCompany :=
  fold_left (fun acc m => if present acc m then acc else (acc ++ [m])%list)
            extra merged.

Definition reconcile_matches (static_matches oracle_matches : list SimilarCompany)
    : list SimilarCompany :=
  let merged := dedup_first oracle_matches in
  let merged := append_absent merged static_matches in
  firstn 5 (sort_by_score_desc merged).

(** Risk levels under the ordering low < medium < high. *)
Inductive risk : Type := Low | Medium | High.

Definition risk_label (r : risk) : string :=
  match r with Low => "low" | Medium => "medium" | High => "high" end.

Definition severity (r : risk) : nat :=
  match r with Low => 0 | Medium => 1 | High => 2 end.

Definition higher_risk (a b : risk) : risk :=
  if (severity a <? severity b)%nat then b else a.

(** [|i - j|], the edit distance between two prefixes of one string. *)
Definition dist (i j : nat) : nat := (i - j) + (j - i).

(** The row of [_levenshtein_distance] reached after [i] characters when
    both arguments are the same string of length [n]. *)
Definition diagonal_row (n i : nat) : list nat := map (dist i) (seq 0 (n + 1)).

(** *** The Wagner-Fischer table *)

(** [s[i]], with a default outside the string. *)
Definition char_at (s : string) (i : nat) : ascii :=
  match String.get i s with
  | Some c => c
  | None => zero
  end.

(** The edit distance between the first [i] characters of [s1] and the first
    [j] characters of [s2], by the textbook recurrence. *)
Fixpoint lev_table (s1 s2 : string) (i j : nat) {struct i} : nat :=
  match i with
  | O => j
  | S i' =>
      (fix row (j : nat) : nat :=
         match j with
         | O => S i'
         | S j' =>
             Nat.min (lev_table s1 s2 i' (S j') + 1)
               (Nat.min (row j' + 1)
                  (lev_table s1 s2 i' j'
                   + char_differs (char_at s1 i') (char_at s2 j')))
         end) j
  end.

(** Row [i] of the table, for a second string of length [n]. *)
Definition table_row (s1 s2 : string) (n i : nat) : list nat :=
  map (lev_table s1 s2 i) (seq 0 (n + 1)).


(** The perception placeholder of [analyze_perception]. *)
Definition placeholder_perception (mission : option string) : PerceptionResult :=
  {| evokes := "professional, modern";
     industry_association := ["technology"; "business"];
     memorability := "high";
     mission_alignment := if opt_truthy mission then Some 7.0%Q else None |}.

(** ** The persona oracle: [brandval/perception.py]

    The language-model client is a record of functions, one per prompt: each
    stands for [client.messages.create] on the prompt built from its
    arguments followed by the decoding of the reply, and raises when the
    request or the decoding fails. *)
Module Perception.

Record PersonaResponse := {
  persona : string;
  age : nat;
  occupation : string;
  pr_evokes : string;
  industry_guess : string;
  would_trust : bool;
  memorable : bool;
  explanation : string
}.

Record PerceptionAnalysis := {
  pa_evokes : string;
  pa_industry_association : list string;
  pa_memorability : string;
  persona_responses : list PersonaResponse;
  consensus_score : Q;
  pa_mission_alignment : option Q;
  mission_explanation : option string
}.

(** One entry of [PERSONAS]. *)
Record persona_profile := {
  p_name : string;
  p_age : nat;
  p_occupation : string;
  p_background : string
}.

Definition PERSONAS : list persona_profile :=
  [ {| p_name := "Sarah"; p_age := 28; p_occupation := "Software Engineer";
       p_background := "Tech-savvy millennial who works at a startup. Values innovation and authenticity." |};
    {| p_name := "Robert"; p_age := 55; p_occupation := "Small Business Owner";
       p_background := "Runs a local accounting firm. Conservative, values trust and reliability." |};
    {| p_name := "Maya"; p_age := 34; p_occupation := "Marketing Director";
       p_background := "Works at a Fortune 500 company. Expert in branding, very critical of names." |};
    {| p_name := "James"; p_age := 42; p_occupation := "Investor";
       p_background := "VC partner who evaluates hundreds of startups. Focuses on market positioning." |};
    {| p_name := "Lisa"; p_age := 22; p_occupation := "College Student";
       p_background := "Gen Z, heavy social media user. Cares about authenticity and social impact." |} ].

(** The decoded reply of a persona: a JSON object whose keys may be absent. *)
Record persona_json := {
  j_evokes : option string;
  j_industry_guess : option string;
  j_would_trust : option bool;
  j_memorable : option bool;
  j_explanation : option string
}.

(** The decoded reply to the alignment prompt: a JSON object whose two keys
    may be absent, or a JSON value that is not an object. *)
Inductive alignment_value : Type :=
| AlignObject (a_score : option Q) (a_explanation : option string)
| AlignOther.

Record llm_client := {
  persona_reply :
    persona_profile -> string -> option string -> py_result persona_json;
  synthesis_reply : string -> list PersonaResponse -> py_result string;
  alignment_reply : string -> string -> string -> py_result alignment_value
}.

(** Characters removed by [str.strip()]. *)
Definition is_space (c : ascii) : bool :=
  let n := nat_of_ascii c in
  ((9 <=? n)%nat && (n <=? 13)%nat) || ((28 <=? n)%nat && (n <=? 32)%nat).

Fixpoint lstrip (s : string) : string :=
  match s with
  | EmptyString => EmptyString
  | String c s' => if is_space c then lstrip s' else s
  end.

Fixpoint rstrip (s : string) : string :=
  match s with
  | EmptyString => EmptyString
  | String c s' =>
      match rstrip s' with
      | EmptyString => if is_space c then EmptyString else String c EmptyString
      | r => String c r
      end
  end.

(** [s.strip()] *)
Definition strip (s : string) : string := rstrip (lstrip s).

(** [l[:n]] for an integer [n], negative values counting from the end. *)
Definition slice_to {A : Type} (n : Z) (l : list A) : list A :=
  if (n <? 0)%Z then firstn (Z.to_nat (Z.of_nat (length l) + n)) l
  else firstn (Z.to_nat n) l.

Definition _query_persona (client : llm_client) (nm : string)
    (p : persona_profile) (mission : option string)
    : option PersonaResponse * list string :=
  match persona_reply client p nm mission with
  | Return result =>
      (Some {| persona := p_name p;
               age := p_age p;
               occupation := p_occupation p;
               pr_evokes := default "" (j_evokes result);
               industry_guess := default "" (j_industry_guess result);
               would_trust := default true (j_would_trust result);
               memorable := default true (j_memorable result);
               explanation := default "" (j_explanation result) |}, [])
  | Raise e =>
      (None,
       ["Error querying persona " +:+ p_name p +:+ ": " +:+ exception_str e])
  end.

Definition _evaluate_mission_alignment (client : llm_client)
    (nm mission evokes : string) : alignment_value :=
  match alignment_reply client nm mission evokes with
  | Return v => v
  | Raise _ => AlignObject (Some 5.0%Q) (Some "Unable to evaluate alignment.")
  end.

(** The analysis returned when no persona answered. *)
Definition no_response_analysis : PerceptionAnalysis :=
  {| pa_evokes := "professional, modern";
     pa_industry_association := ["technology"; "business"];
     pa_memorability := "high";
     persona_responses := [];
     consensus_score := 0.0%Q;
     pa_mission_alignment := None;
     mission_explanation := None |}.

(** [sum(1 for r in responses if f(r))] *)
Definition count_if (f : PersonaResponse -> bool)
    (responses : list PersonaResponse) : nat :=
  length (List.filter f responses).

(** [_aggregate_responses].  [order] is the order in which [list(set(...))]
    enumerates a set of strings, which Python leaves unspecified. *)
Definition _aggregate_responses (order : gset string -> list string)
    (responses : list PersonaResponse) (nm : string)
    (mission : option string) (client : llm_client)
    : py_result PerceptionAnalysis :=
  match responses with
  | [] => Return no_response_analysis
  | _ =>
      let all_evokes := map pr_evokes responses in
      let all_industries := map industry_guess responses in
      let trust_rate :=
        (Q_of_nat (count_if would_trust responses)
         / Q_of_nat (length responses))%Q in
      let memorable_rate :=
        (Q_of_nat (count_if memorable responses)
         / Q_of_nat (length responses))%Q in
      let consensus := ((trust_rate + memorable_rate) / 2)%Q in
      let memorability :=
        if Qle_bool 0.8 memorable_rate then "high"
        else if Qle_bool 0.5 memorable_rate then "medium"
        else "low" in
      let evokes_summary :=
        match synthesis_reply client nm responses with
        | Return text => strip text
        | Raise _ =>
            match all_evokes with
            | e :: _ => e
            | [] => "professional, modern"
            end
        end in
      let unique_industries := firstn 4 (order (list_to_set all_industries)) in
      let result align expl :=
        {| pa_evokes := evokes_summary;
           pa_industry_association := unique_industries;
           pa_memorability := memorability;
           persona_responses := responses;
           consensus_score := consensus;
           pa_mission_alignment := align;
           mission_explanation := expl |} in
      if opt_truthy mission then
        match _evaluate_mission_alignment client nm (default "" mission)
                evokes_summary with
        | AlignObject (Some sc) (Some ex) => Return (result (Some sc) (Some ex))
        | AlignObject None _ => Raise (KeyError "'score'")
        | AlignObject (Some _) None => Raise (KeyError "'explanation'")
        | AlignOther => Raise (OtherException "TypeError")
        end
      else Return (result None None)
  end.

(** The loop of [analyze_with_personas]; the state is the list of responses
    and the lines printed so far. *)
Definition persona_step (client : llm_client) (nm : string)
    (mission : option string)
    (st : list PersonaResponse * list string) (p : persona_profile)
    : list PersonaResponse * list string :=
  let '(responses, out) := st in
  match _query_persona client nm p mission with
  | (Some response, printed) =>
      ((responses ++ [response])%list, (out ++ printed)%list)
  | (None, printed) => (responses, (out ++ printed)%list)
  end.

(** [analyze_with_personas].  [new_client] stands for [Anthropic()]. *)
Definition analyze_with_personas (order : gset string -> list string)
    (new_client : py_result llm_client) (nm : string)
    (mission : option string) (num_personas : Z)
    : py_result PerceptionAnalysis * list string :=
  match new_client with
  | Raise e => (Raise e, [])
  | Return client =>
      let '(responses, out) :=
        fold_left (persona_step client nm mission)
                  (slice_to num_personas PERSONAS) ([], []) in
      (_aggregate_responses order responses nm mission client, out)
  end.

(** The four attributes of the analysis that [analyze_perception] reads. *)
Definition perception_fields (a : PerceptionAnalysis) : PerceptionResult :=
  {| evokes := pa_evokes a;
     industry_association := pa_industry_association a;
     memorability := pa_memorability a;
     mission_alignment := pa_mission_alignment a |}.

End Perception.

(** What [analyze_perception] receives when it calls
    [analyze_with_personas(name, mission, num_personas=5)]: the analysis or
    the exception; the lines the personas print are not part of it. *)
Definition personas_oracle (order : gset string -> list string)
    (new_client : py_result Perception.llm_client)
    : string -> option string -> nat -> py_result PerceptionResult :=
  fun nm mission num_personas =>
    match fst (Perception.analyze_with_personas order new_client nm mission
                 (Z.of_nat num_personas)) with
    | Return a => Return (Perception.perception_fields a)
    | Raise e => Raise e
    end.

(** ** The HTTP front end: [namecast/api.py]

    The endpoints [/evaluate] and [/compare] with their password gate.  A
    request is its decoded body and its headers, keyed by the header name
    as the code spells it; a response is the returned body, an
    [HTTPException], or an exception left to the framework. *)
Module Api.

Inductive response (A : Type) : Type :=
| Ok (body : A)
| HTTPException (status_code : nat) (detail : string)
| Unhandled (e : exception).
Arguments Ok {A} body.
Arguments HTTPException {A} status_code detail.
Arguments Unhandled {A} e.

Record EvaluateRequest := {
  rq_name : string;
  rq_mission : option string
}.

Record CompareRequest := {
  rq_names : list string;
  rq_compare_mission : option string
}.

Record CompareResponse := {
  results : list Namecast.EvaluationResult;
  winner : string;
  winner_score : Q
}.

(** [check_password]; [NAMECAST_API_PASSWORD] is the value read from the
    environment when the module is loaded. *)
Definition check_password (NAMECAST_API_PASSWORD : option string)
    (headers : gmap string string) : response unit :=
  if negb (opt_truthy NAMECAST_API_PASSWORD) then Ok tt
  else
    let password := default "" (headers !! "X-API-Password") in
    if negb (String.eqb password (default "" NAMECAST_API_PASSWORD))
    then HTTPException 401 "Invalid API password"
    else Ok tt.

Definition evaluate (NAMECAST_API_PASSWORD : option string)
    (ext : collaborators) (request : EvaluateRequest)
    (headers : gmap string string)
    : response Namecast.EvaluationResult * list string :=
  match check_password NAMECAST_API_PASSWORD headers with
  | HTTPException code detail => (HTTPException code detail, [])
  | Unhandled e => (Unhandled e, [])
  | Ok _ =>
      if String.eqb (rq_name request) ""
         || (String.length (rq_name request) <? 2)%nat
      then (HTTPException 400 "Name must be at least 2 characters", [])
      else
        match Namecast.evaluate ext (rq_name request) (rq_mission request)
                                None with
        | (Return result, out) => (Ok result, out)
        | (Raise e, out) => (Unhandled e, out)
        end
  end.

(** [[evaluator.evaluate(name, mission) for name in names]]; the [i]-th
    evaluation meets the collaborators [exts i]. *)
Fixpoint evaluate_all (exts : nat -> collaborators) (i : nat)
    (names : list string) (mission : option string)
    : py_result (list Namecast.EvaluationResult) * list string :=
  match names with
  | [] => (Return [], [])
  | nm :: rest =>
      match Namecast.evaluate (exts i) nm mission None with
      | (Raise e, out) => (Raise e, out)
      | (Return r, out) =>
          match evaluate_all exts (S i) rest mission with
          | (Raise e, out') => (Raise e, (out ++ out')%list)
          | (Return rs, out') => (Return (r :: rs), (out ++ out')%list)
          end
      end
  end.

(** [max(l, key=...)] after its first element: a later element replaces the
    best one only when its key is strictly greater. *)
Fixpoint max_from {A : Type} (key : A -> Q) (best : A) (l : list A) : A :=
  match l with
  | [] => best
  | x :: l' => max_from key (if Qgtb (key x) (key best) then x else best) l'
  end.

Definition compare (NAMECAST_API_PASSWORD : option string)
    (exts : nat -> collaborators) (request : CompareRequest)
    (headers : gmap string string)
    : response CompareResponse * list string :=
  match check_password NAMECAST_API_PASSWORD headers with
  | HTTPException code detail => (HTTPException code detail, [])
  | Unhandled e => (Unhandled e, [])
  | Ok _ =>
      if (length (rq_names request) <? 2)%nat
      then (HTTPException 400 "Must provide at least 2 names to compare", [])
      else
        match evaluate_all exts 0 (rq_names request)
                           (rq_compare_mission request) with
        | (Raise e, out) => (Unhandled e, out)
        | (Return [], out) =>
            (Unhandled (OtherException "max() arg is an empty sequence"), out)
        | (Return (r :: rs), out) =>
            let winner := max_from Namecast.overall_score r rs in
            (Ok {| results := r :: rs;
                   winner := Namecast.er_name winner;
                   winner_score := Namecast.overall_score winner |}, out)
        end
  end.

End Api.

(** *** Sample inputs *)

(** Two personas answer; the synthesis request fails. *)
Definition sample_client : Perception.llm_client :=
  {| Perception.persona_reply := fun p _ _ =>
       if String.eqb (Perception.p_name p) "Sarah"
       then Return {| Perception.j_evokes := Some "speed";
                      Perception.j_industry_guess := Some "payments";
                      Perception.j_would_trust := None;
                      Perception.j_memorable := Some false;
                      Perception.j_explanation := None |}
       else if String.eqb (Perception.p_name p) "Maya"
       then Return {| Perception.j_evokes := Some "stripes";
                      Perception.j_industry_guess := Some "payments";
                      Perception.j_would_trust := Some true;
                      Perception.j_memorable := Some true;
                      Perception.j_explanation := Some "short" |}
       else Raise (TimeoutError "timed out");
     Perception.synthesis_reply := fun _ _ => Raise (TimeoutError "timed out");
     Perception.alignment_reply := fun _ _ _ =>
       Return (Perception.AlignObject None (Some "fits")) |}.

Definition sample_responses : list Perception.PersonaResponse :=
  [ {| Perception.persona := "Sarah"; Perception.age := 28;
       Perception.occupation := "Software Engineer";
       Perception.pr_evokes := "speed";
       Perception.industry_guess := "payments";
       Perception.would_trust := true; Perception.memorable := false;
       Perception.explanation := "" |};
    {| Perception.persona := "Maya"; Perception.age := 34;
       Perception.occupation := "Marketing Director";
       Perception.pr_evokes := "stripes";
       Perception.industry_guess := "payments";
       Perception.would_trust := true; Perception.memorable := true;
       Perception.explanation := "short" |} ].


Definition sample_analysis : Perception.PerceptionAnalysis :=
  {| Perception.pa_evokes := "speed";
     Perception.pa_industry_association := ["payments"];
     Perception.pa_memorability := "medium";
     Perception.persona_responses := sample_responses;
     Perception.consensus_score := 6 # 8;
     Perception.pa_mission_alignment := None;
     Perception.mission_explanation := None |}.

Definition sample_collaborators : collaborators :=
  {| environ := ∅;
     whois := fun _ => Raise (TimeoutError "timed out");
     llm_similar := fun _ => Raise (TimeoutError "timed out");
     personas := fun _ _ _ => Raise (TimeoutError "timed out") |}.

(** * Properties *)

(** ** Auxiliary facts on rationals, lists and maps *)

Lemma Qgtb_true (x y : Q) : Qgtb x y = true <-> (y < x)%Q.
Proof.
  unfold Qgtb. rewrite negb_true_iff.
  split; intros H.
  - apply Qnot_le_lt. intros Hle. apply Qle_bool_iff in Hle. congruence.
  - destruct (Qle_bool x y) eqn:E; [|reflexivity].
    apply Qle_bool_iff in E. exfalso. apply (Qlt_not_le _ _ H E).
Qed.

Lemma Qgtb_false (x y : Q) : Qgtb x y = false <-> (x <= y)%Q.
Proof.
  unfold Qgtb. rewrite negb_false_iff. apply Qle_bool_iff.
Qed.

Lemma Qmax_ge_l (x y : Q) : (x <= Qmax x y)%Q.
Proof.
  unfold Qmax. destruct (Qle_bool y x) eqn:E; [apply Qle_refl|].
  apply Qlt_le_weak, Qnot_le_lt. intros H. apply Qle_bool_iff in H. congruence.
Qed.

Lemma Qmax_le (x y z : Q) : (x <= z)%Q -> (y <= z)%Q -> (Qmax x y <= z)%Q.
Proof. unfold Qmax. destruct (Qle_bool y x); auto. Qed.

Lemma Qmin_le_l (x y : Q) : (Qmin x y <= x)%Q.
Proof.
  unfold Qmin. destruct (Qle_bool x y) eqn:E; [apply Qle_refl|].
  apply Qlt_le_weak, Qnot_le_lt. intros H. apply Qle_bool_iff in H. congruence.
Qed.

Lemma Q_of_nat_nonneg (n : nat) : (0 <= Q_of_nat n)%Q.
Proof. unfold Q_of_nat, Qle. simpl. lia. Qed.

Lemma Q_of_nat_le (n k : nat) : (n <= k)%nat -> (Q_of_nat n <= Q_of_nat k)%Q.
Proof. intros H. unfold Q_of_nat, Qle. simpl. lia. Qed.

Lemma Q_of_nat_pos (n : nat) : (0 < n)%nat -> (0 < Q_of_nat n)%Q.
Proof. intros H. unfold Q_of_nat, Qlt. simpl. lia. Qed.

(** A fraction [n / k] of natural numbers with [n <= k] lies in [[0, 1]]. *)
Lemma Q_ratio_bounds (n k : nat) :
  (n <= k)%nat -> (0 < k)%nat ->
  (0 <= Q_of_nat n / Q_of_nat k)%Q /\ (Q_of_nat n / Q_of_nat k <= 1)%Q.
Proof.
  intros Hnk Hk. pose proof (Q_of_nat_pos k Hk) as Hpos. split.
  - apply Qle_shift_div_l; [exact Hpos|]. rewrite Qmult_0_l.
    apply Q_of_nat_nonneg.
  - apply Qle_shift_div_r; [exact Hpos|]. rewrite Qmult_1_l.
    apply Q_of_nat_le, Hnk.
Qed.

Section map_counting.
Context {V : Type}.
Implicit Types (m : gmap string V) (l : list (string * V)).

Lemma map_to_list_filter_perm (P : string * V -> Prop)
    `{!forall x, Decision (P x)} m :
  map_to_list (filter P m) ≡ₚ filter P (map_to_list m).
Proof.
  rewrite map_filter_alt. apply map_to_list_to_map.
  apply (NoDup_fmap_fst _).
  - intros k v1 v2 [_ H1]%list_elem_of_filter [_ H2]%list_elem_of_filter.
    apply elem_of_map_to_list in H1, H2. congruence.
  - apply NoDup_filter, NoDup_map_to_list.
Qed.

Lemma size_filter_list (P : string * V -> Prop)
    `{!forall x, Decision (P x)} m :
  size (filter P m) = length (filter P (map_to_list m)).
Proof.
  rewrite <- length_map_to_list. apply Permutation_length.
  apply map_to_list_filter_perm.
Qed.

Lemma filter_keys_fst (P : string -> Prop) `{!forall x, Decision (P x)} l :
  filter P (map fst l) = map fst (filter (fun kv => P (fst kv)) l).
Proof.
  induction l as [|[k v] l IH]; [reflexivity|].
  simpl. rewrite !filter_cons. simpl.
  destruct (decide (P k)); simpl; rewrite IH; reflexivity.
Qed.

Lemma filter_vals_snd (P : V -> Prop) `{!forall x, Decision (P x)} l :
  filter P (map snd l) = map snd (filter (fun kv => P (snd kv)) l).
Proof.
  induction l as [|[k v] l IH]; [reflexivity|].
  simpl. rewrite !filter_cons. simpl.
  destruct (decide (P v)); simpl; rewrite IH; reflexivity.
Qed.
End map_counting.

(** ** Domain score *)

Lemma get_truthy_keys (m : gmap string bool) (l : list (string * bool)) :
  (forall k v, (k, v) ∈ l -> m !! k = Some v) ->
  length (filter (fun tld => get_truthy m tld = true) (map fst l))
  = length (filter (fun kv : string * bool => snd kv = true) l).
Proof.
  induction l as [|[k v] l IH]; intros Hl; [reflexivity|].
  simpl. rewrite !filter_cons. simpl.
  assert (Hk : get_truthy m k = v).
  { unfold get_truthy. rewrite (Hl k v); [reflexivity|]. left. }
  rewrite Hk.
  assert (IH' : length (filter (fun tld => get_truthy m tld = true) (map fst l))
                = length (filter (fun kv : string * bool => snd kv = true) l)).
  { apply IH. intros k' v' Hin. apply Hl. right. exact Hin. }
  destruct (decide (v = true)); simpl; rewrite IH'; reflexivity.
Qed.

Lemma check_domains_domains_of whois nm :
  check_domains whois nm
  = domains_of (fun tld =>
      bool_decide (whois_lookup whois (lower nm +:+ tld) = None)).
Proof.
  unfold check_domains, domains_of, DEFAULT_TLDS. simpl.
  apply map_eq. intros k.
  repeat (rewrite lookup_insert; case_decide; [reflexivity|]).
  reflexivity.
Qed.

(** C6.  For every map of TLD to availability, the domain sub-score is 50
    points when ".com" is mapped to available, plus 50 times the fraction of
    available TLDs among the TLDs other than ".com" when there is at least
    one such TLD; it is 0 for the empty map.  Over the default five TLDs, all
    available gives 100, none available gives 0, and only ".com" available
    gives 50. *)
Theorem calc_domain_score_spec :
  (forall domains : gmap string bool,
     let others :=
       filter (fun kv : string * bool => fst kv ≠ ".com") domains in
     let available :=
       filter (fun kv : string * bool => snd kv = true) others in
     (_calc_domain_score domains ==
        (if bool_decide (domains !! ".com" = Some true) then 50 else 0)
        + (if bool_decide (others = ∅) then 0
           else Q_of_nat (size available) / Q_of_nat (size others) * 50))%Q)
  /\ (_calc_domain_score ∅ == 0)%Q
  /\ (_calc_domain_score (domains_of (fun _ => true)) == 100)%Q
  /\ (_calc_domain_score (domains_of (fun _ => false)) == 0)%Q
  /\ (_calc_domain_score (domains_of (fun tld => String.eqb tld ".com")) == 50)%Q.
Proof.
  split; [|repeat split; vm_compute; reflexivity].
  intros domains others available.
  assert (Hothers : size others
    = length (filter (fun tld => tld ≠ ".com") (map fst (map_to_list domains)))).
  { unfold others. rewrite size_filter_list, filter_keys_fst, length_map.
    reflexivity. }
  assert (Havail : size available
    = length (filter (fun tld => get_truthy domains tld = true)
                (filter (fun tld => tld ≠ ".com")
                        (map fst (map_to_list domains))))).
  { unfold available, others. rewrite size_filter_list.
    rewrite (Permutation_length
               (filter_Permutation _ _ _ (map_to_list_filter_perm _ domains))).
    rewrite filter_keys_fst, get_truthy_keys; [reflexivity|].
    intros k v [_ Hin]%list_elem_of_filter.
    apply elem_of_map_to_list in Hin. exact Hin. }
  assert (Hcom : get_truthy domains ".com"
                 = bool_decide (domains !! ".com" = Some true)).
  { unfold get_truthy. destruct (domains !! ".com") as [[|]|]; reflexivity. }
  unfold _calc_domain_score.
  destruct (decide (domains = ∅)) as [->|Hne].
  - rewrite lookup_empty.
    rewrite (bool_decide_eq_false_2 (None = Some true)); [|discriminate].
    rewrite (bool_decide_eq_true_2 (others = ∅)); [reflexivity|].
    unfold others. apply map_filter_empty.
  - rewrite Hcom, Havail, Hothers.
    destruct (filter (fun tld => tld ≠ ".com") (map fst (map_to_list domains)))
      as [|t ts] eqn:E.
    + rewrite (bool_decide_eq_true_2 (others = ∅)).
      * symmetry. apply Qplus_0_r.
      * apply map_size_empty_inv. rewrite Hothers. reflexivity.
    + rewrite (bool_decide_eq_false_2 (others = ∅)).
      * reflexivity.
      * intros H0. apply map_size_empty_iff in H0. rewrite Hothers in H0.
        discriminate.
Qed.

(** ** International check *)

Lemma problematic_lookup (k : string) :
  k ≠ "mist" -> k ≠ "nova" -> k ≠ "fart" -> problematic !! k = None.
Proof.
  intros H1 H2 H3. unfold problematic.
  rewrite !lookup_insert_ne by congruence. apply lookup_empty.
Qed.

Ltac intl_closed_case :=
  split; [|split; [|split]];
  [ vm_compute; reflexivity
  | vm_compute; lia
  | apply map_Forall_to_list; vm_compute;
    repeat constructor; simpl; intros; (discriminate || tauto)
  | vm_compute; (left; reflexivity) || (right; reflexivity) ].

(** C10.  For every name, [check_international] has an entry for exactly the
    seven checked languages, at most one entry is flagged, a flagged entry is
    either german for "mist" or spanish for "nova", and the international
    sub-score of the result is 80 or 100. *)
Theorem check_international_spec (nm : string) :
  let r := check_international nm in
  dom r = list_to_set languages
  /\ (size (flagged r) <= 1)%nat
  /\ map_Forall (fun lang e =>
        has_issue e = true ->
        (lang = "german" /\ lower nm = "mist")
        \/ (lang = "spanish" /\ lower nm = "nova")) r
  /\ ((_calc_international_score r == 80)%Q
      \/ (_calc_international_score r == 100)%Q).
Proof.
  unfold check_international. cbv zeta.
  destruct (decide (lower nm = "mist")) as [E|N1]; [rewrite E; intl_closed_case|].
  destruct (decide (lower nm = "nova")) as [E|N2]; [rewrite E; intl_closed_case|].
  destruct (decide (lower nm = "fart")) as [E|N3]; [rewrite E; intl_closed_case|].
  rewrite (problematic_lookup _ N1 N2 N3). intl_closed_case.
Qed.

(** ** Pronunciation score *)

(** C7, as stated, fails on a name that repeats one cluster: "tchtch"
    contains "tch" twice, has base score 9 and is scored 7.5, where one
    penalty per occurrence would give 6. *)
Lemma pronunciation_repeat_counterexample :
  count_occurrences "tch" (lower "tchtch") = 2%nat
  /\ (score (analyze_pronunciation "tchtch") == 7.5)%Q
  /\ (score_per_occurrence "tchtch" == 6)%Q
  /\ ~ (score (analyze_pronunciation "tchtch")
        == score_per_occurrence "tchtch")%Q.
Proof.
  split; [reflexivity|].
  split; [vm_compute; reflexivity|].
  split; [vm_compute; reflexivity|].
  vm_compute. discriminate.
Qed.

(** C7, amended.  For every name, the pronunciation score is the
    syllable-count base score reduced by 1.5 for each difficult cluster among
    xw, zx, ptl, tch, sch that occurs at least once in the lower-cased name,
    clamped to [[0, 10]]. *)
Theorem pronunciation_score_per_cluster (nm : string) :
  (score (analyze_pronunciation nm) == score_per_cluster nm)%Q
  /\ (0 <= score (analyze_pronunciation nm))%Q
  /\ (score (analyze_pronunciation nm) <= 10)%Q.
Proof.
  unfold score_per_cluster, clusters_present, analyze_pronunciation,
    base_score_of, difficult_patterns.
  simpl.
  destruct (contains "xw" (lower nm)), (contains "zx" (lower nm)),
    (contains "ptl" (lower nm)), (contains "tch" (lower nm)),
    (contains "sch" (lower nm));
  destruct (_count_syllables nm <=? 2)%nat,
    (_count_syllables nm <=? 3)%nat, (_count_syllables nm <=? 4)%nat;
  (split; [|split]); vm_compute; congruence.
Qed.

(** ** Ordering and size of match lists *)

Lemma insert_desc_perm x l : Permutation (x :: l) (insert_desc x l).
Proof.
  induction l as [|y l IH]; simpl; [reflexivity|].
  destruct (Qgtb (similarity_score y) (similarity_score x)); [|reflexivity].
  rewrite perm_swap. apply perm_skip, IH.
Qed.

Lemma sort_by_score_desc_perm l : Permutation l (sort_by_score_desc l).
Proof.
  induction l as [|x l IH]; simpl; [reflexivity|].
  rewrite <- insert_desc_perm. apply perm_skip, IH.
Qed.

Lemma insert_desc_HdRel a x l :
  score_ge a x -> HdRel score_ge a l -> HdRel score_ge a (insert_desc x l).
Proof.
  intros Hax Hal. destruct l as [|y l]; simpl; [constructor; exact Hax|].
  destruct (Qgtb (similarity_score y) (similarity_score x)).
  - constructor. inversion Hal; assumption.
  - constructor. exact Hax.
Qed.

Lemma insert_desc_sorted x l :
  Sorted score_ge l -> Sorted score_ge (insert_desc x l).
Proof.
  induction l as [|y l IH]; intros Hs; simpl.
  - repeat constructor.
  - inversion Hs as [|? ? Hl Hhd]; subst.
    destruct (Qgtb (similarity_score y) (similarity_score x)) eqn:E.
    + constructor; [apply IH, Hl|].
      apply insert_desc_HdRel; [|exact Hhd].
      apply Qgtb_true in E. apply Qlt_le_weak, E.
    + constructor; [exact Hs|]. constructor.
      apply Qgtb_false in E. exact E.
Qed.

Lemma sort_by_score_desc_sorted l : Sorted score_ge (sort_by_score_desc l).
Proof.
  induction l as [|x l IH]; simpl; [constructor|].
  apply insert_desc_sorted, IH.
Qed.

Lemma firstn_sorted n (l : list SimilarCompany) :
  Sorted score_ge l -> Sorted score_ge (firstn n l).
Proof.
  revert l. induction n as [|n IH]; intros l Hs; [constructor|].
  destruct l as [|x l]; [constructor|]. simpl.
  inversion Hs as [|? ? Hl Hhd]; subst.
  constructor; [apply IH, Hl|].
  destruct n; [constructor|].
  destruct l as [|y l]; constructor. inversion Hhd; assumption.
Qed.

Lemma top5_sorted l :
  (length (firstn 5 (sort_by_score_desc l)) <= 5)%nat
  /\ Sorted score_ge (firstn 5 (sort_by_score_desc l)).
Proof.
  split.
  - apply firstn_le_length.
  - apply firstn_sorted, sort_by_score_desc_sorted.
Qed.

(** C8.  The result of the static similarity pass and the result of the
    reconciliation of a static and an oracle result each hold at most five
    matches, in non-increasing order of score. *)
Theorem matches_top5_sorted :
  (forall nm,
     (length (matches (_find_similar_static nm)) <= 5)%nat
     /\ Sorted score_ge (matches (_find_similar_static nm)))
  /\ (forall static llm,
        (length (matches (_merge_similar_results static llm)) <= 5)%nat
        /\ Sorted score_ge (matches (_merge_similar_results static llm))).
Proof.
  split; intros; unfold _find_similar_static, _merge_similar_results;
    cbv zeta; simpl matches; apply top5_sorted.
Qed.

(** ** Confusion risk of the static pass *)

Lemma existsb_above threshold l :
  existsb (fun m => Qgtb (similarity_score m) threshold) l = true
  <-> some_above threshold l.
Proof.
  unfold some_above. rewrite existsb_exists.
  split; intros [m [Hin Hm]]; exists m; (split; [exact Hin|]);
    apply Qgtb_true; exact Hm.
Qed.

Lemma some_above_weaken (t1 t2 : Q) l :
  (t2 <= t1)%Q -> some_above t1 l -> some_above t2 l.
Proof.
  intros Ht [m [Hin Hm]]. exists m. split; [exact Hin|].
  eapply Qle_lt_trans; eassumption.
Qed.

Lemma static_confusion_risk_spec l :
  (static_confusion_risk l = "high" <-> some_above 0.8 l)
  /\ (~ some_above 0.8 l ->
      (static_confusion_risk l = "medium" <-> some_above 0.6 l))
  /\ (~ some_above 0.8 l -> ~ some_above 0.6 l ->
      static_confusion_risk l = "low")
  /\ (l = [] -> static_confusion_risk l = "low").
Proof.
  destruct l as [|m0 l0].
  - simpl. repeat split; try discriminate; try reflexivity;
      intros [m [[] _]].
  - set (l := m0 :: l0). unfold static_confusion_risk. fold l.
    destruct (existsb (fun m => Qgtb (similarity_score m) 0.8) l) eqn:E8;
    destruct (existsb (fun m => Qgtb (similarity_score m) 0.6) l) eqn:E6;
    try (apply existsb_above in E8); try (apply existsb_above in E6);
    try (assert (N8 : ~ some_above 0.8 l)
           by (rewrite <- existsb_above; congruence));
    try (assert (N6 : ~ some_above 0.6 l)
           by (rewrite <- existsb_above; congruence));
    repeat split; intros; try tauto; try discriminate; try reflexivity.
Qed.

(** C5.  For every name, the static result alone has risk "high" exactly
    when some returned match scores above 0.8; failing that, it has risk
    "medium" exactly when some returned match scores above 0.6; failing
    that, and in particular when there is no match, it has risk "low". *)
Theorem static_risk_from_scores (nm : string) :
  let r := _find_similar_static nm in
  (confusion_risk r = "high" <-> some_above 0.8 (matches r))
  /\ (~ some_above 0.8 (matches r) ->
      (confusion_risk r = "medium" <-> some_above 0.6 (matches r)))
  /\ (~ some_above 0.8 (matches r) -> ~ some_above 0.6 (matches r) ->
      confusion_risk r = "low")
  /\ (matches r = [] -> confusion_risk r = "low").
Proof.
  unfold _find_similar_static. cbv zeta. simpl matches. simpl confusion_risk.
  apply static_confusion_risk_spec.
Qed.

(** ** Reconciliation of static and oracle results *)

Lemma same_lower_name_true m m' :
  same_lower_name m m' = true <-> lower_name m = lower_name m'.
Proof. unfold same_lower_name. apply String.eqb_eq. Qed.

Lemma present_spec merged m :
  present merged m = true <-> In (lower_name m) (map lower_name merged).
Proof.
  unfold present. rewrite existsb_exists, in_map_iff.
  split; intros [m' [H1 H2]]; exists m'.
  - apply same_lower_name_true in H2. split; [symmetry|]; assumption.
  - split; [exact H2|]. apply same_lower_name_true. symmetry. exact H1.
Qed.

Lemma present_app merged m' m :
  present (merged ++ [m'])%list m = present merged m || same_lower_name m m'.
Proof.
  unfold present. rewrite existsb_app. simpl. rewrite orb_false_r. reflexivity.
Qed.

Lemma present_same_key merged m m' :
  lower_name m = lower_name m' -> present merged m = present merged m'.
Proof.
  intros H. unfold present, same_lower_name. rewrite H. reflexivity.
Qed.

(** The loops of [_merge_similar_results] keep [seen_names] equal to the set
    of lower-cased names of [merged_matches], and extend [merged_matches]
    as [append_absent] does. *)
Lemma merge_loop_append_absent l :
  forall (seen : gset string) merged,
    (forall k, k ∈ seen <-> In k (map lower_name merged)) ->
    let st := fold_left merge_step l (seen, merged) in
    snd st = append_absent merged l
    /\ (forall k, k ∈ fst st <-> In k (map lower_name (snd st))).
Proof.
  induction l as [|m l IH]; intros seen merged Hinv; simpl.
  - split; [reflexivity|exact Hinv].
  - unfold append_absent. simpl. fold (lower_name m).
    destruct (decide (lower_name m ∈ seen)) as [Hin|Hnin].
    + assert (Hp : present merged m = true) by (apply present_spec, Hinv, Hin).
      rewrite Hp. apply IH, Hinv.
    + assert (Hp : present merged m = false).
      { destruct (present merged m) eqn:E; [|reflexivity].
        exfalso. apply Hnin, Hinv, present_spec, E. }
      rewrite Hp. apply IH. intros k.
      rewrite map_app, in_app_iff, elem_of_union, elem_of_singleton, Hinv.
      simpl. intuition.
Qed.

Lemma filter_filter_bool {A} (f g : A -> bool) l :
  List.filter f (List.filter g l) = List.filter (fun x => g x && f x) l.
Proof.
  induction l as [|x l IH]; simpl; [reflexivity|].
  destruct (g x); simpl; [destruct (f x)|]; rewrite IH; reflexivity.
Qed.

(** [append_absent] from any accumulator, in terms of [dedup_first]. *)
Lemma append_absent_dedup l :
  forall acc,
    append_absent acc l
    = (acc ++ List.filter (fun m => negb (present acc m)) (dedup_first l))%list.
Proof.
  induction l as [|m l IH]; intros acc.
  - simpl. rewrite app_nil_r. reflexivity.
  - unfold append_absent. simpl.
    destruct (present acc m) eqn:Hp; simpl.
    + fold (append_absent acc l). rewrite IH. f_equal.
      rewrite filter_filter_bool. apply filter_ext. intros m'.
      destruct (same_lower_name m m') eqn:E; [|reflexivity].
      apply same_lower_name_true in E.
      rewrite <- (present_same_key acc m m' E), Hp. reflexivity.
    + fold (append_absent (acc ++ [m])%list l). rewrite IH, <- app_assoc. simpl.
      do 2 f_equal.
      rewrite filter_filter_bool. apply filter_ext. intros m'.
      rewrite present_app, negb_orb.
      assert (Hsym : same_lower_name m' m = same_lower_name m m').
      { unfold same_lower_name. apply String.eqb_sym. }
      rewrite Hsym. apply andb_comm.
Qed.

Lemma append_absent_nil l : append_absent [] l = dedup_first l.
Proof.
  rewrite append_absent_dedup. simpl.
  induction (dedup_first l) as [|x d IH]; simpl; [reflexivity|].
  rewrite IH. reflexivity.
Qed.

(** Deduplicating the oracle's matches and then appending the absent static
    matches is deduplicating the concatenation. *)
Lemma append_absent_dedup_app l1 l2 :
  append_absent (dedup_first l1) l2 = dedup_first (l1 ++ l2).
Proof.
  rewrite <- !append_absent_nil. unfold append_absent.
  rewrite fold_left_app. reflexivity.
Qed.

Lemma dedup_first_keys l m :
  In (lower_name m) (map lower_name (dedup_first l))
  <-> In (lower_name m) (map lower_name l).
Proof.
  induction l as [|x l IH]; simpl; [tauto|].
  rewrite <- IH, !in_map_iff. split.
  - intros [H|[y [Hy Hin]]]; [left; exact H|].
    apply filter_In in Hin. right. exists y. tauto.
  - intros [H|[y [Hy Hin]]]; [left; exact H|].
    destruct (same_lower_name x y) eqn:E.
    + left. apply same_lower_name_true in E. congruence.
    + right. exists y. split; [exact Hy|].
      apply filter_In. rewrite E. tauto.
Qed.

Lemma dedup_first_NoDup l : List.NoDup (map lower_name (dedup_first l)).
Proof.
  induction l as [|x l IH]; simpl; constructor.
  - rewrite in_map_iff. intros [y [Hy Hin]].
    apply filter_In in Hin. destruct Hin as [_ Hne].
    assert (E : same_lower_name x y = true)
      by (apply same_lower_name_true; congruence).
    rewrite E in Hne. discriminate.
  - clear -IH. induction (dedup_first l) as [|y d IHd]; simpl; [constructor|].
    inversion IH as [|? ? Hnotin Hd]; subst.
    destruct (negb (same_lower_name x y)); simpl; [|apply IHd, Hd].
    constructor; [|apply IHd, Hd].
    rewrite in_map_iff. intros [z [Hz Hin]]. apply Hnotin.
    apply filter_In in Hin. rewrite in_map_iff. exists z. tauto.
Qed.

Lemma merge_matches_spec static llm :
  matches (_merge_similar_results static llm)
  = reconcile_matches (matches static) (matches llm).
Proof.
  unfold _merge_similar_results, reconcile_matches. cbv zeta. simpl matches.
  destruct (merge_loop_append_absent (matches llm) ∅ []) as [H1 I1].
  { intros k. simpl. rewrite elem_of_empty. tauto. }
  cbv zeta in H1, I1.
  destruct (fold_left merge_step (matches llm) (∅, [])) as [seen1 merged1].
  simpl in H1, I1.
  destruct (merge_loop_append_absent (matches static) seen1 merged1 I1)
    as [H2 _].
  cbv zeta in H2. rewrite H2, H1, append_absent_nil. reflexivity.
Qed.

(** C4.  For inputs whose risk labels are among low, medium and high, the
    reconciled matches are the oracle's matches deduplicated by lower-cased
    name (first occurrence wins), followed by each static match whose
    lower-cased name is not already present, sorted by descending score and
    cut to the top five; the reconciled risk is the higher of the two risks
    under low < medium < high. *)
Theorem merge_similar_results_spec (static llm : SimilarCompaniesResult)
    (rs rl : risk) :
  confusion_risk static = risk_label rs ->
  confusion_risk llm = risk_label rl ->
  matches (_merge_similar_results static llm)
  = reconcile_matches (matches static) (matches llm)
  /\ confusion_risk (_merge_similar_results static llm)
     = risk_label (higher_risk rs rl).
Proof.
  intros Hs Hl. split; [apply merge_matches_spec|].
  unfold _merge_similar_results. cbv zeta. simpl confusion_risk.
  rewrite Hs, Hl. destruct rs, rl; reflexivity.
Qed.

Example merge_similar_results_example :
  let stripe s := {| name := "Stripe"; similarity_score := s;
                     industry := "payments"; reason := "shares prefix" |} in
  let strype := {| name := "Strype"; similarity_score := 0.6;
                   industry := "fintech"; reason := "sounds alike" |} in
  let upper := {| name := "STRIPE"; similarity_score := 0.95;
                  industry := "payments"; reason := "identical" |} in
  _merge_similar_results
    {| matches := [stripe 0.7%Q]; confusion_risk := "medium" |}
    {| matches := [strype; stripe 0.9%Q; upper]; confusion_risk := "low" |}
  = {| matches := [stripe 0.9%Q; strype]; confusion_risk := "medium" |}.
Proof. reflexivity. Qed.

(** C4 at an oracle result with a repeated name and a static result the
    oracle already covers. *)
Lemma merge_similar_results_witness :
  let stripe s := {| name := "Stripe"; similarity_score := s;
                     industry := "payments"; reason := "shares prefix" |} in
  let strype := {| name := "strype"; similarity_score := 0.6;
                   industry := "fintech"; reason := "sounds alike" |} in
  let static := {| matches := [stripe 0.7%Q]; confusion_risk := "medium" |} in
  let llm := {| matches := [strype; stripe 0.9%Q; strype];
                confusion_risk := "high" |} in
  matches (_merge_similar_results static llm)
  = reconcile_matches (matches static) (matches llm)
  /\ confusion_risk (_merge_similar_results static llm)
     = risk_label (higher_risk Medium High).
Proof.
  cbv zeta.
  apply (merge_similar_results_spec _ _ Medium High); reflexivity.
Defined.

(** ** Oracle failure *)

(** C9.  For every name, when the call to the language-model oracle raises,
    [find_similar_companies] returns exactly the result of the static pass
    and raises nothing; the failure is only printed. *)
Theorem find_similar_companies_oracle_failure
    (environ : gmap string string)
    (llm : string -> py_result SimilarCompaniesResult)
    (nm : string) (e : exception) :
  llm nm = Raise e ->
  fst (find_similar_companies environ llm nm)
  = Return (_find_similar_static nm)
  /\ snd (find_similar_companies environ llm nm)
     = if env_truthy environ "ANTHROPIC_API_KEY"
       then ["LLM similar companies search failed: " +:+ exception_str e]
       else [].
Proof.
  intros Hraise. unfold find_similar_companies. cbv zeta. rewrite Hraise.
  destruct (env_truthy environ "ANTHROPIC_API_KEY"); split; reflexivity.
Qed.

(** C9 at an oracle that times out, with the credential set. *)
Lemma find_similar_companies_oracle_failure_witness :
  let environ : gmap string string := {[ "ANTHROPIC_API_KEY" := "sk-test" ]} in
  let llm := fun _ : string =>
    @Raise SimilarCompaniesResult (TimeoutError "request timed out") in
  fst (find_similar_companies environ llm "Stripey")
  = Return (_find_similar_static "Stripey")
  /\ snd (find_similar_companies environ llm "Stripey")
     = ["LLM similar companies search failed: request timed out"].
Proof.
  cbv zeta.
  exact (find_similar_companies_oracle_failure
           {[ "ANTHROPIC_API_KEY" := "sk-test" ]}
           (fun _ => Raise (TimeoutError "request timed out"))
           "Stripey" (TimeoutError "request timed out") eq_refl).
Defined.

(** ** Ranges of the sub-scores *)

Lemma calc_domain_score_bounds (d : gmap string bool) :
  (0 <= _calc_domain_score d <= 100)%Q.
Proof.
  unfold _calc_domain_score.
  destruct (decide (d = ∅)) as [|Hne]; [lra|]. cbv zeta.
  set (others := filter (fun tld => tld ≠ ".com") (map fst (map_to_list d))).
  set (n := length (filter (fun tld => get_truthy d tld = true) others)).
  assert (Hn : (n <= length others)%nat) by apply length_filter.
  assert (Hc : (0 <= (if get_truthy d ".com" then 50 else 0) <= 50)%Q)
    by (destruct (get_truthy d ".com"); lra).
  destruct others as [|t ts] eqn:E; [lra|].
  destruct (Q_ratio_bounds n (length (t :: ts)) Hn) as [H0 H1];
    [simpl; lia|].
  lra.
Qed.

Lemma calc_social_score_bounds (s : gmap string bool) :
  (0 <= _calc_social_score s <= 100)%Q.
Proof.
  unfold _calc_social_score.
  destruct (decide (s = ∅)) as [|Hne]; [lra|]. cbv zeta.
  set (n := length (filter (fun v => v = true) (map snd (map_to_list s)))).
  assert (Hn : (n <= size s)%nat).
  { unfold n. etransitivity; [apply length_filter|].
    rewrite length_map, length_map_to_list. reflexivity. }
  assert (Hs : (0 < size s)%nat).
  { destruct (size s) eqn:E; [|lia].
    apply map_size_empty_inv in E. contradiction. }
  destruct (Q_ratio_bounds n (size s) Hn Hs) as [H0 H1]. lra.
Qed.

Lemma calc_trademark_score_bounds (t : TrademarkResult) :
  (0 <= _calc_trademark_score t <= 100)%Q.
Proof.
  unfold _calc_trademark_score.
  destruct (String.eqb (risk_level t) "low"); [lra|].
  destruct (String.eqb (risk_level t) "medium"); lra.
Qed.

Lemma calc_international_score_bounds (i : gmap string intl_entry) :
  (0 <= _calc_international_score i <= 100)%Q.
Proof.
  unfold _calc_international_score.
  destruct (decide (i = ∅)) as [|Hne]; [lra|]. cbv zeta.
  set (n := length _). split; [apply Qmax_ge_l|].
  apply Qmax_le; [lra|]. pose proof (Q_of_nat_nonneg n). lra.
Qed.

Lemma calc_similar_companies_score_bounds (r : SimilarCompaniesResult) :
  (0 <= _calc_similar_companies_score r <= 100)%Q.
Proof.
  unfold _calc_similar_companies_score.
  destruct (matches r); [lra|].
  destruct (String.eqb (confusion_risk r) "high"); [lra|].
  destruct (String.eqb (confusion_risk r) "medium"); lra.
Qed.

Lemma analyze_pronunciation_score_bounds (nm : string) :
  (0 <= score (analyze_pronunciation nm) <= 10)%Q.
Proof.
  unfold analyze_pronunciation. cbv zeta. unfold score.
  split; [apply Qmax_ge_l|].
  apply Qmax_le; [lra|]. apply Qmin_le_l.
Qed.

(** The weighted sum of six scores in [[0, 100]] is in [[0, 100]]. *)
Lemma weighted_sum_bounds (d s t p i c : Q) :
  (0 <= d <= 100 -> 0 <= s <= 100 -> 0 <= t <= 100 ->
   0 <= p <= 100 -> 0 <= i <= 100 -> 0 <= c <= 100 ->
   0 <= d * 0.20 + s * 0.10 + t * 0.20 + p * 0.15 + i * 0.15 + c * 0.20
     <= 100)%Q.
Proof. intros. lra. Qed.

Lemma Q_of_nat_S (n : nat) : (Q_of_nat (S n) == Q_of_nat n + 1)%Q.
Proof.
  unfold Q_of_nat. rewrite Nat2Z.inj_succ. unfold Z.succ.
  rewrite inject_Z_plus. reflexivity.
Qed.

Lemma social_points_bounds (v : Namecast.social_value) :
  (0 <= Namecast.social_points v <= 100)%Q.
Proof.
  destruct v as [r|b]; simpl.
  - destruct (Namecast.exact_available r); [lra|].
    destruct (opt_truthy (Namecast.best_alternative r)); lra.
  - destruct b; lra.
Qed.

Lemma total_points_bounds (l : list Namecast.social_value) :
  forall acc : Q,
    let total := fold_left (fun (t : Q) v => (t + Namecast.social_points v)%Q)
                           l acc in
    (acc <= total <= acc + 100 * Q_of_nat (length l))%Q.
Proof.
  induction l as [|v l IH]; intros acc; cbn [fold_left length]; cbv zeta.
  - change (Q_of_nat 0) with 0%Q. lra.
  - specialize (IH (acc + Namecast.social_points v)%Q). cbv zeta in IH.
    pose proof (social_points_bounds v) as Hv.
    pose proof (Q_of_nat_S (length l)) as HS.
    lra.
Qed.

Lemma namecast_social_score_bounds (s : gmap string Namecast.social_value) :
  (0 <= Namecast._calc_social_score s <= 100)%Q.
Proof.
  unfold Namecast._calc_social_score.
  destruct (decide (s = ∅)) as [|Hne]; [lra|]. cbv zeta.
  pose proof (total_points_bounds (map snd (map_to_list s)) 0) as Ht.
  cbv zeta in Ht. rewrite length_map, length_map_to_list in Ht.
  assert (Hs : (0 < Q_of_nat (size s))%Q).
  { apply Q_of_nat_pos. destruct (size s) eqn:E; [|lia].
    apply map_size_empty_inv in E. contradiction. }
  split.
  - apply Qle_shift_div_l; [exact Hs|]. lra.
  - apply Qle_shift_div_r; [exact Hs|]. lra.
Qed.

(** ** Overall score *)

(** C1.  Every evaluation returns a record whose overall score is
    0.20 domain + 0.10 social + 0.20 trademark + 0.15 pronunciation
    + 0.15 international + 0.20 similar-companies of the sub-scores stored in
    that record, and lies between 0 and 100; this holds for the evaluator of
    [brandval] and for the one of [namecast]. *)
Theorem evaluate_overall_score :
  (forall ext nm mission,
     exists r,
       fst (evaluate ext nm mission) = Return r
       /\ (overall_score r ==
             weighted_overall (domain_score r) (social_score r)
               (trademark_score r) (pronunciation_score r)
               (international_score r) (similar_companies_score r))%Q
       /\ (0 <= overall_score r <= 100)%Q)
  /\ (forall ext nm mission planned_domain,
        exists r,
          fst (Namecast.evaluate ext nm mission planned_domain) = Return r
          /\ (Namecast.overall_score r ==
                weighted_overall (Namecast.domain_score r)
                  (Namecast.social_score r) (Namecast.trademark_score r)
                  (Namecast.pronunciation_score r)
                  (Namecast.international_score r)
                  (Namecast.similar_companies_score r))%Q
          /\ (0 <= Namecast.overall_score r <= 100)%Q).
Proof.
  split.
  - intros ext nm mission. unfold evaluate. cbv zeta.
    destruct (analyze_perception _ _ nm mission) as [perception out1].
    pose proof (analyze_pronunciation_score_bounds nm) as Hp.
    set (pron := analyze_pronunciation nm) in *. clearbody pron.
    unfold find_similar_companies. cbv zeta.
    destruct (env_truthy (environ ext) "ANTHROPIC_API_KEY");
      [destruct (llm_similar ext nm) as [llm_result|e]|];
      (eexists; split; [reflexivity|]; simpl;
       split; [unfold weighted_overall; ring|];
       apply weighted_sum_bounds;
       [ apply calc_domain_score_bounds
       | apply calc_social_score_bounds
       | apply calc_trademark_score_bounds
       | lra
       | apply calc_international_score_bounds
       | apply calc_similar_companies_score_bounds ]).
  - intros ext nm mission planned_domain. unfold Namecast.evaluate. cbv zeta.
    destruct (analyze_perception _ _ nm mission) as [perception out1].
    pose proof (analyze_pronunciation_score_bounds nm) as Hp.
    set (pron := analyze_pronunciation nm) in *. clearbody pron.
    unfold Namecast.find_similar_companies. cbv zeta.
    destruct (env_truthy (environ ext) "ANTHROPIC_API_KEY");
      [destruct (llm_similar ext nm) as [llm_result|e]|];
      (eexists; split; [reflexivity|]; simpl;
       split; [unfold weighted_overall; ring|];
       apply weighted_sum_bounds;
       [ apply calc_domain_score_bounds
       | apply namecast_social_score_bounds
       | apply calc_trademark_score_bounds
       | lra
       | apply calc_international_score_bounds
       | apply calc_similar_companies_score_bounds ]).
Qed.

(** ** Similarity of a name with itself *)

Lemma startswith_refl s : startswith s s = true.
Proof.
  induction s as [|c s IH]; simpl; [reflexivity|].
  rewrite Ascii.eqb_refl. exact IH.
Qed.

Lemma prefix_len_refl s : prefix_len s s = String.length s.
Proof.
  induction s as [|c s IH]; simpl; [reflexivity|].
  rewrite Ascii.eqb_refl, IH. reflexivity.
Qed.

Lemma enumerate_from_fst k s :
  map fst (enumerate_from k s) = seq k (String.length s).
Proof.
  revert k. induction s as [|c s IH]; intros k; simpl; [reflexivity|].
  rewrite IH. reflexivity.
Qed.

Lemma enumerate_from_length k s :
  length (enumerate_from k s) = String.length s.
Proof.
  rewrite <- (length_map fst), enumerate_from_fst. apply length_seq.
Qed.

Lemma enumerate_from_ge k s i c : In (i, c) (enumerate_from k s) -> (k <= i)%nat.
Proof.
  intros H. apply (in_map fst) in H. rewrite enumerate_from_fst in H.
  apply in_seq in H. simpl in H. lia.
Qed.

Lemma enumerate_from_functional k s i c c' :
  In (i, c) (enumerate_from k s) -> In (i, c') (enumerate_from k s) -> c = c'.
Proof.
  revert k. induction s as [|a s IH]; intros k; simpl; [tauto|].
  intros [H1|H1] [H2|H2].
  - congruence.
  - apply enumerate_from_ge in H2. inversion H1. lia.
  - apply enumerate_from_ge in H1. inversion H2. lia.
  - eapply IH; eassumption.
Qed.

Lemma nth_map_seq (f : nat -> nat) n k :
  (k < n)%nat -> nth k (map f (seq 0 n)) 0%nat = f k.
Proof.
  intros H. rewrite (nth_indep _ 0%nat (f 0%nat)) by (rewrite length_map, length_seq; exact H).
  rewrite map_nth, seq_nth by exact H. reflexivity.
Qed.

Lemma map_seq_snoc (f : nat -> nat) n :
  map f (seq 0 (n + 1)) = (map f (seq 0 n) ++ [f n])%list.
Proof. rewrite seq_app, map_app. reflexivity. Qed.

(** The new cell on the row below the diagonal row. *)
Lemma diagonal_cell i j d :
  (j = i -> d = 0%nat) -> (d <= 1)%nat ->
  Nat.min (dist i (j + 1) + 1) (Nat.min (dist (i + 1) j + 1) (dist i j + d))
  = dist (i + 1) (j + 1).
Proof. unfold dist. intros H0 H1. lia. Qed.

Lemma char_differs_le c1 c2 : (char_differs c1 c2 <= 1)%nat.
Proof. unfold char_differs. destruct (Ascii.eqb c1 c2); lia. Qed.

Lemma char_differs_refl c : char_differs c c = 0%nat.
Proof. unfold char_differs. rewrite Ascii.eqb_refl. reflexivity. Qed.

Section levenshtein_diagonal.
Variable n : nat.

(** The inner loop, run on cells [j, j+1, ...] below the diagonal row of
    index [i], extends the row of index [i + 1]. *)
Lemma lev_cells_diagonal (i : nat) (c1 : ascii) (l : list (nat * ascii)) :
  forall j,
    map fst l = seq j (length l) ->
    (j + length l <= n)%nat ->
    (forall j' c2, In (j', c2) l -> j' = i -> c2 = c1) ->
    fold_left (lev_cell c1 (diagonal_row n i)) l
              (map (dist (i + 1)) (seq 0 (j + 1)))
    = map (dist (i + 1)) (seq 0 (j + length l + 1)).
Proof.
  induction l as [|[j0 c2] l IH]; intros j Hfst Hlen Hsame.
  - simpl. rewrite Nat.add_0_r. reflexivity.
  - simpl in Hfst, Hlen. injection Hfst as -> Hfst.
    assert (Hcell :
      lev_cell c1 (diagonal_row n i) (map (dist (i + 1)) (seq 0 (j + 1)))
               (j, c2)
      = map (dist (i + 1)) (seq 0 (j + 1 + 1))).
    { unfold lev_cell, diagonal_row. rewrite !nth_map_seq by lia.
      rewrite diagonal_cell.
      - rewrite <- map_seq_snoc. reflexivity.
      - intros ->.
        rewrite (Hsame i c2); [apply char_differs_refl| |reflexivity].
        left. reflexivity.
      - apply char_differs_le. }
    cbn [fold_left]. rewrite Hcell, (IH (j + 1)%nat).
    + f_equal. f_equal. simpl. lia.
    + rewrite Nat.add_1_r. exact Hfst.
    + lia.
    + intros j' c' Hin. apply Hsame. right. exact Hin.
Qed.

Variable s : string.
Hypothesis s_length : String.length s = n.

Lemma lev_row_diagonal i c1 :
  In (i, c1) (enumerate s) ->
  lev_row s (diagonal_row n i) (i, c1) = diagonal_row n (i + 1).
Proof.
  intros Hin. unfold lev_row, enumerate in *.
  assert (Hstart : [(i + 1)%nat] = map (dist (i + 1)) (seq 0 (0 + 1))).
  { simpl. unfold dist. f_equal. lia. }
  rewrite Hstart, (lev_cells_diagonal i c1 (enumerate_from 0 s) 0).
  - rewrite enumerate_from_length, s_length. reflexivity.
  - rewrite enumerate_from_fst, enumerate_from_length. reflexivity.
  - rewrite enumerate_from_length. lia.
  - intros j' c2 Hin' ->.
    eapply enumerate_from_functional; eassumption.
Qed.

Lemma lev_rows_diagonal (l : list (nat * ascii)) :
  forall i,
    map fst l = seq i (length l) ->
    (forall x, In x l -> In x (enumerate s)) ->
    fold_left (lev_row s) l (diagonal_row n i)
    = diagonal_row n (i + length l).
Proof.
  induction l as [|[i0 c1] l IH]; intros i Hfst Hsub.
  - simpl. rewrite Nat.add_0_r. reflexivity.
  - simpl in Hfst. injection Hfst as -> Hfst.
    cbn [fold_left]. rewrite lev_row_diagonal by (apply Hsub; left; reflexivity).
    rewrite IH.
    + f_equal. simpl. lia.
    + rewrite Nat.add_1_r. exact Hfst.
    + intros x Hx. apply Hsub. right. exact Hx.
Qed.
End levenshtein_diagonal.

Lemma diagonal_row_0 n : diagonal_row n 0 = seq 0 (n + 1).
Proof.
  unfold diagonal_row. rewrite <- (map_id (seq 0 (n + 1))) at 2.
  apply map_ext. intros j. unfold dist. simpl. lia.
Qed.

Lemma levenshtein_distance_refl s : _levenshtein_distance s s = 0%nat.
Proof.
  unfold _levenshtein_distance. rewrite Nat.ltb_irrefl. unfold lev_rows.
  destruct (String.length s =? 0)%nat eqn:E; [apply Nat.eqb_eq, E|].
  cbv zeta. rewrite <- diagonal_row_0.
  rewrite (lev_rows_diagonal (String.length s) s eq_refl (enumerate s) 0).
  - unfold enumerate. rewrite enumerate_from_length. simpl. unfold diagonal_row.
    rewrite map_seq_snoc, last_last. unfold dist. lia.
  - unfold enumerate. rewrite enumerate_from_length. apply enumerate_from_fst.
  - auto.
Qed.

(** The phonetic component takes the values 0.7 and 0 only: 0.7 when one key
    is a prefix of the other, equal keys included, and 0 otherwise. *)
Lemma phonetic_similarity_cases a b :
  let ka := _simplify_phonetic a in
  let kb := _simplify_phonetic b in
  (startswith ka kb || startswith kb ka = true ->
   phonetic_similarity a b = 0.7%Q)
  /\ (startswith ka kb || startswith kb ka = false ->
      phonetic_similarity a b = 0.0%Q).
Proof.
  cbv zeta. unfold phonetic_similarity. cbv zeta. split; intros H; rewrite H.
  - reflexivity.
  - destruct (String.eqb_spec (_simplify_phonetic a) (_simplify_phonetic b))
      as [E|_]; [|reflexivity].
    rewrite E, startswith_refl in H. discriminate.
Qed.

Lemma phonetic_similarity_self a :
  phonetic_similarity a a = 0.7%Q /\ ~ (phonetic_similarity a a == 1.0)%Q.
Proof.
  unfold phonetic_similarity. cbv zeta. rewrite startswith_refl. simpl.
  split; [reflexivity|discriminate].
Qed.

(** C2.  What the code computes when the two phonetic keys are equal: each
    key is then a prefix of the other, so the statement that follows the
    conditional expression overwrites its 1.0 with 0.7. *)
Theorem phonetic_similarity_equal_keys (a b : string) :
  _simplify_phonetic a = _simplify_phonetic b ->
  phonetic_similarity a b = 0.7%Q /\ ~ (phonetic_similarity a b == 1.0)%Q.
Proof.
  intros Hkey. unfold phonetic_similarity. cbv zeta.
  rewrite Hkey, startswith_refl. simpl. split; [reflexivity|discriminate].
Qed.

(** C2 at the pair ("stripe", "stripe"). *)
Lemma phonetic_similarity_equal_keys_witness :
  phonetic_similarity "stripe" "stripe" = 0.7%Q
  /\ ~ (phonetic_similarity "stripe" "stripe" == 1.0)%Q.
Proof.
  apply (phonetic_similarity_equal_keys "stripe" "stripe"). reflexivity.
Defined.

Lemma edit_similarity_self a : a ≠ "" -> (edit_similarity a a == 1)%Q.
Proof.
  intros Ha. unfold edit_similarity. cbv zeta.
  rewrite levenshtein_distance_refl, Nat.max_id.
  destruct a as [|c a]; [contradiction|]. cbn [String.length Nat.ltb Nat.leb].
  change (Q_of_nat 0) with 0%Q. unfold Qdiv. rewrite Qmult_0_l. reflexivity.
Qed.

Lemma prefix_similarity_self a : a ≠ "" -> (prefix_similarity a a == 1)%Q.
Proof.
  intros Ha. unfold prefix_similarity. cbv zeta.
  rewrite prefix_len_refl, Nat.max_id.
  destruct a as [|c a]; [contradiction|]. cbn [String.length Nat.ltb Nat.leb].
  apply Qmult_inv_r. intros H0.
  pose proof (Q_of_nat_pos (S (String.length a))) as Hpos.
  rewrite H0 in Hpos. apply (Qlt_irrefl 0). apply Hpos. lia.
Qed.

(** C3.  What the code computes for a non-empty name compared with itself:
    edit and prefix similarity are 1 and the phonetic component is 0.7, so
    the weighted sum is 0.88 and not 1. *)
Theorem calculate_similarity_self (a : string) :
  a ≠ "" ->
  (_calculate_similarity a a == 0.88)%Q /\ ~ (_calculate_similarity a a == 1.0)%Q.
Proof.
  intros Ha.
  assert (H : (_calculate_similarity a a == 0.88)%Q).
  { unfold _calculate_similarity.
    rewrite (edit_similarity_self a Ha), (prefix_similarity_self a Ha).
    destruct (phonetic_similarity_self a) as [-> _]. reflexivity. }
  split; [exact H|]. rewrite H. discriminate.
Qed.

(** C3 at "stripe". *)
Lemma calculate_similarity_self_witness :
  (_calculate_similarity "stripe" "stripe" == 0.88)%Q
  /\ ~ (_calculate_similarity "stripe" "stripe" == 1.0)%Q.
Proof.
  apply (calculate_similarity_self "stripe"). discriminate.
Defined.

(** ** The testable properties of the specification that are plain
    evaluations *)

Example levenshtein_kitten_sitting :
  _levenshtein_distance "kitten" "sitting" = 3%nat
  /\ _levenshtein_distance "sitting" "kitten" = 3%nat.
Proof. split; reflexivity. Qed.

Example simplify_phonetic_examples :
  _simplify_phonetic "Stripey" = "strp"
  /\ _simplify_phonetic "Phoenix" = "fnx"
  /\ _simplify_phonetic "a" = "a".
Proof. repeat split; reflexivity. Qed.

Example title_examples :
  title "copy.ai" = "Copy.Ai" /\ title "auth0" = "Auth0".
Proof. split; reflexivity. Qed.

Example similarity_stripe_acme :
  (_calculate_similarity "Stripe" "Acme"
   < _calculate_similarity "Stripe" "Stripe")%Q.
Proof. vm_compute. reflexivity. Qed.

Example pronunciation_examples :
  (score_pronunciation "Supercalifragilistic" < score_pronunciation "Stripe")%Q
  /\ (score_pronunciation "Xwyzptlk" < score_pronunciation "Luma")%Q
  /\ syllables (analyze_pronunciation "Spotify") = 3%nat.
Proof. repeat split; vm_compute; reflexivity. Qed.

Example international_examples :
  has_issue <$> (check_international "Mist" !! "german") = Some true
  /\ flagged (check_international "Luma") = ∅.
Proof. split; vm_compute; reflexivity. Qed.

(** The close variant "Stripey" reaches "Stripe" with a score just below
    0.8, so the static pass rates it medium. *)
Example find_similar_static_stripey :
  map name (matches (_find_similar_static "Stripey")) = ["Stripe"]
  /\ confusion_risk (_find_similar_static "Stripey") = "medium"
  /\ (_calculate_similarity "stripey" "stripe" == 139 # 175)%Q.
Proof. repeat split; vm_compute; reflexivity. Qed.

(** ** Edit distance *)

Lemma lev_table_SS s1 s2 i j :
  lev_table s1 s2 (S i) (S j)
  = Nat.min (lev_table s1 s2 i (S j) + 1)
      (Nat.min (lev_table s1 s2 (S i) j + 1)
         (lev_table s1 s2 i j + char_differs (char_at s1 i) (char_at s2 j))).
Proof. reflexivity. Qed.

Lemma lev_table_i0 s1 s2 i : lev_table s1 s2 i 0 = i.
Proof. destruct i; reflexivity. Qed.

Lemma char_differs_sym c1 c2 : char_differs c1 c2 = char_differs c2 c1.
Proof. unfold char_differs. rewrite Ascii.eqb_sym. reflexivity. Qed.

Lemma lev_table_sym s1 s2 i :
  forall j, lev_table s1 s2 i j = lev_table s2 s1 j i.
Proof.
  induction i as [|i IHi]; intros j.
  - rewrite lev_table_i0. reflexivity.
  - induction j as [|j IHj]; [reflexivity|].
    rewrite !lev_table_SS, IHj, !IHi, char_differs_sym. lia.
Qed.

Lemma lev_table_bounds s1 s2 i :
  forall j,
    (dist i j <= lev_table s1 s2 i j)%nat
    /\ (lev_table s1 s2 i j <= Nat.max i j)%nat.
Proof.
  unfold dist. induction i as [|i IHi]; intros j.
  - simpl. lia.
  - induction j as [|j IHj]; [simpl; lia|].
    rewrite lev_table_SS.
    pose proof (IHi j) as H1. pose proof (IHi (S j)) as H2.
    pose proof (char_differs_le (char_at s1 i) (char_at s2 j)). lia.
Qed.

Lemma lev_table_zero s1 s2 i :
  forall j,
    lev_table s1 s2 i j = 0%nat ->
    i = j /\ forall k, (k < i)%nat -> char_at s1 k = char_at s2 k.
Proof.
  induction i as [|i IHi]; intros j.
  - simpl. intros ->. split; [reflexivity|]. intros k Hk. lia.
  - destruct j as [|j]; [discriminate|].
    rewrite lev_table_SS. intros H0.
    assert (Hij : lev_table s1 s2 i j = 0%nat) by lia.
    assert (Hd : char_differs (char_at s1 i) (char_at s2 j) = 0%nat) by lia.
    destruct (IHi j Hij) as [-> Hpre]. split; [reflexivity|].
    intros k Hk. destruct (Nat.eq_dec k j) as [->|Hne].
    + unfold char_differs in Hd.
      destruct (Ascii.eqb_spec (char_at s1 j) (char_at s2 j)); [assumption|lia].
    + apply Hpre. lia.
Qed.

Lemma char_at_ext s1 :
  forall s2,
    String.length s1 = String.length s2 ->
    (forall k, (k < String.length s1)%nat -> char_at s1 k = char_at s2 k) ->
    s1 = s2.
Proof.
  induction s1 as [|c s1 IH]; intros [|c2 s2] Hlen Hk;
    try reflexivity; try discriminate.
  f_equal.
  - apply (Hk 0%nat). simpl. lia.
  - apply IH; [simpl in Hlen; lia|].
    intros k Hlt. apply (Hk (S k)). simpl. lia.
Qed.

Lemma enumerate_from_char_at s :
  forall k t i c,
    (forall i, char_at t i = char_at s (k + i)) ->
    In (i, c) (enumerate_from k t) -> c = char_at s i.
Proof.
  intros k t. revert k. induction t as [|a t IH]; intros k i c Hsuf; simpl;
    [tauto|].
  intros [H|H].
  - inversion H; subst. specialize (Hsuf 0%nat). rewrite Nat.add_0_r in Hsuf.
    exact Hsuf.
  - apply (IH (S k)); [|exact H].
    intros i'. specialize (Hsuf (S i')). simpl in Hsuf.
    rewrite Nat.add_succ_r in Hsuf. exact Hsuf.
Qed.

Lemma enumerate_char_at s i c : In (i, c) (enumerate s) -> c = char_at s i.
Proof. apply enumerate_from_char_at. reflexivity. Qed.

Section levenshtein_table.
Variables (s1 s2 : string) (n : nat).
Hypothesis s2_length : String.length s2 = n.

Lemma lev_cell_table i j c1 c2 :
  (j < n)%nat -> c1 = char_at s1 i -> c2 = char_at s2 j ->
  lev_cell c1 (table_row s1 s2 n i)
           (map (lev_table s1 s2 (S i)) (seq 0 (j + 1))) (j, c2)
  = map (lev_table s1 s2 (S i)) (seq 0 (S j + 1)).
Proof.
  intros Hj -> ->. unfold lev_cell, table_row.
  rewrite !nth_map_seq by lia.
  rewrite (map_seq_snoc _ (S j)), lev_table_SS.
  rewrite !Nat.add_1_r. reflexivity.
Qed.

Lemma lev_cells_table i c1 (l : list (nat * ascii)) :
  forall j,
    map fst l = seq j (length l) ->
    (j + length l <= n)%nat ->
    c1 = char_at s1 i ->
    (forall j' c2, In (j', c2) l -> c2 = char_at s2 j') ->
    fold_left (lev_cell c1 (table_row s1 s2 n i)) l
              (map (lev_table s1 s2 (S i)) (seq 0 (j + 1)))
    = map (lev_table s1 s2 (S i)) (seq 0 (j + length l + 1)).
Proof.
  induction l as [|[j0 c2] l IH]; intros j Hfst Hlen Hc1 Hc2.
  - simpl. rewrite Nat.add_0_r. reflexivity.
  - simpl in Hfst, Hlen. injection Hfst as -> Hfst.
    cbn [fold_left]. rewrite lev_cell_table.
    + rewrite (IH (S j)).
      * f_equal. f_equal. simpl. lia.
      * exact Hfst.
      * lia.
      * exact Hc1.
      * intros j' c' Hin. apply Hc2. right. exact Hin.
    + lia.
    + exact Hc1.
    + apply Hc2. left. reflexivity.
Qed.

Lemma lev_row_table i c1 :
  c1 = char_at s1 i ->
  lev_row s2 (table_row s1 s2 n i) (i, c1) = table_row s1 s2 n (S i).
Proof.
  intros Hc1. unfold lev_row, enumerate.
  assert (Hstart : [(i + 1)%nat] = map (lev_table s1 s2 (S i)) (seq 0 (0 + 1))).
  { simpl. rewrite Nat.add_1_r. reflexivity. }
  rewrite Hstart, (lev_cells_table i c1 (enumerate_from 0 s2) 0).
  - rewrite enumerate_from_length, s2_length. reflexivity.
  - rewrite enumerate_from_fst, enumerate_from_length. reflexivity.
  - rewrite enumerate_from_length. lia.
  - exact Hc1.
  - intros j' c2 Hin. apply enumerate_char_at. exact Hin.
Qed.

Lemma lev_rows_table (l : list (nat * ascii)) :
  forall i,
    map fst l = seq i (length l) ->
    (forall i' c1, In (i', c1) l -> c1 = char_at s1 i') ->
    fold_left (lev_row s2) l (table_row s1 s2 n i)
    = table_row s1 s2 n (i + length l).
Proof.
  induction l as [|[i0 c1] l IH]; intros i Hfst Hc.
  - simpl. rewrite Nat.add_0_r. reflexivity.
  - simpl in Hfst. injection Hfst as -> Hfst.
    cbn [fold_left]. rewrite lev_row_table by (apply Hc; left; reflexivity).
    rewrite IH.
    + f_equal. simpl. lia.
    + exact Hfst.
    + intros i' c' Hin. apply Hc. right. exact Hin.
Qed.
End levenshtein_table.

(** The row-by-row loop computes the corner of the table. *)
Lemma lev_rows_lev_table s1 s2 :
  lev_rows s1 s2 = lev_table s1 s2 (String.length s1) (String.length s2).
Proof.
  unfold lev_rows.
  destruct (String.length s2 =? 0)%nat eqn:E.
  - apply Nat.eqb_eq in E. rewrite E, lev_table_i0. reflexivity.
  - cbv zeta.
    assert (H0 : seq 0 (String.length s2 + 1)
                 = table_row s1 s2 (String.length s2) 0).
    { unfold table_row. rewrite <- (map_id (seq 0 _)) at 1. reflexivity. }
    rewrite H0, (lev_rows_table s1 s2 _ eq_refl (enumerate s1) 0).
    + unfold enumerate. rewrite enumerate_from_length. simpl.
      unfold table_row. rewrite map_seq_snoc, last_last. reflexivity.
    + unfold enumerate. rewrite enumerate_from_length. apply enumerate_from_fst.
    + intros i' c1. apply enumerate_char_at.
Qed.

Lemma levenshtein_distance_lev_table s1 s2 :
  _levenshtein_distance s1 s2
  = lev_table s1 s2 (String.length s1) (String.length s2).
Proof.
  unfold _levenshtein_distance.
  destruct (String.length s1 <? String.length s2)%nat;
    rewrite lev_rows_lev_table; [apply lev_table_sym|reflexivity].
Qed.

(** X1.  The distance of two strings is zero exactly when they are equal. *)
Theorem levenshtein_distance_zero_iff (s1 s2 : string) :
  _levenshtein_distance s1 s2 = 0%nat <-> s1 = s2.
Proof.
  split.
  - rewrite levenshtein_distance_lev_table. intros H.
    destruct (lev_table_zero _ _ _ _ H) as [Hlen Hk].
    apply char_at_ext; assumption.
  - intros ->. apply levenshtein_distance_refl.
Qed.

(** X2.  The distance does not depend on the order of its arguments. *)
Theorem levenshtein_distance_sym (s1 s2 : string) :
  _levenshtein_distance s1 s2 = _levenshtein_distance s2 s1.
Proof.
  rewrite !levenshtein_distance_lev_table. apply lev_table_sym.
Qed.

(** X3.  The distance is at least the difference of the two lengths and at
    most the larger length; against the empty string it is the length. *)
Theorem levenshtein_distance_bounds (s1 s2 : string) :
  (dist (String.length s1) (String.length s2) <= _levenshtein_distance s1 s2)%nat
  /\ (_levenshtein_distance s1 s2
      <= Nat.max (String.length s1) (String.length s2))%nat
  /\ _levenshtein_distance s1 "" = String.length s1
  /\ _levenshtein_distance "" s2 = String.length s2.
Proof.
  rewrite !levenshtein_distance_lev_table.
  destruct (lev_table_bounds s1 s2 (String.length s1) (String.length s2))
    as [Hlo Hhi].
  repeat split; [exact Hlo|exact Hhi|apply lev_table_i0].
Qed.

(** ** Range and symmetry of the similarity score *)

Lemma prefix_len_sym a : forall b, prefix_len a b = prefix_len b a.
Proof.
  induction a as [|x a IH]; intros [|y b]; simpl; try reflexivity.
  rewrite (Ascii.eqb_sym y x). destruct (Ascii.eqb x y); [|reflexivity].
  rewrite IH. reflexivity.
Qed.

Lemma prefix_len_le a :
  forall b, (prefix_len a b <= Nat.min (String.length a) (String.length b))%nat.
Proof.
  induction a as [|x a IH]; intros [|y b]; simpl; try lia.
  destruct (Ascii.eqb x y); [|lia]. specialize (IH b). lia.
Qed.

Lemma levenshtein_distance_comm a b :
  _levenshtein_distance a b = _levenshtein_distance b a.
Proof. rewrite !levenshtein_distance_lev_table. apply lev_table_sym. Qed.

Lemma levenshtein_distance_le_max a b :
  (_levenshtein_distance a b <= Nat.max (String.length a) (String.length b))%nat.
Proof. rewrite levenshtein_distance_lev_table. apply lev_table_bounds. Qed.

Lemma phonetic_similarity_sym a b :
  phonetic_similarity a b = phonetic_similarity b a.
Proof.
  unfold phonetic_similarity. cbv zeta.
  rewrite (String.eqb_sym (_simplify_phonetic b)).
  rewrite (orb_comm (startswith (_simplify_phonetic b) _)). reflexivity.
Qed.

Lemma phonetic_similarity_range a b :
  (0 <= phonetic_similarity a b <= 0.7)%Q.
Proof.
  destruct (phonetic_similarity_cases a b) as [H1 H0]. cbv zeta in H1, H0.
  destruct (startswith (_simplify_phonetic a) (_simplify_phonetic b)
            || startswith (_simplify_phonetic b) (_simplify_phonetic a)).
  - rewrite H1 by reflexivity. lra.
  - rewrite H0 by reflexivity. lra.
Qed.

Lemma edit_similarity_range a b : (0 <= edit_similarity a b <= 1)%Q.
Proof.
  unfold edit_similarity. cbv zeta.
  pose proof (levenshtein_distance_le_max a b) as Hd.
  destruct (0 <? Nat.max (String.length a) (String.length b))%nat eqn:E; [|lra].
  apply Nat.ltb_lt in E.
  destruct (Q_ratio_bounds _ _ Hd E) as [H0 H1]. lra.
Qed.

Lemma prefix_similarity_range a b : (0 <= prefix_similarity a b <= 1)%Q.
Proof.
  unfold prefix_similarity. cbv zeta.
  pose proof (prefix_len_le a b) as Hp.
  destruct (0 <? Nat.max (String.length a) (String.length b))%nat eqn:E; [|lra].
  apply Nat.ltb_lt in E.
  assert (Hle : (prefix_len a b
                 <= Nat.max (String.length a) (String.length b))%nat) by lia.
  destruct (Q_ratio_bounds _ _ Hle E) as [H0 H1]. lra.
Qed.

Lemma calculate_similarity_range a b :
  (0 <= _calculate_similarity a b <= 0.88)%Q.
Proof.
  unfold _calculate_similarity.
  pose proof (edit_similarity_range a b).
  pose proof (phonetic_similarity_range a b).
  pose proof (prefix_similarity_range a b). lra.
Qed.

(** X4.  The similarity of two names does not depend on their order. *)
Theorem calculate_similarity_sym (a b : string) :
  _calculate_similarity a b = _calculate_similarity b a.
Proof.
  unfold _calculate_similarity, edit_similarity, prefix_similarity.
  cbv zeta.
  rewrite (levenshtein_distance_comm a b), (prefix_len_sym a b),
    (phonetic_similarity_sym a b),
    (Nat.max_comm (String.length a) (String.length b)).
  reflexivity.
Qed.

(** X5.  The similarity of any two names lies between 0 and 0.88: the
    phonetic component never exceeds 0.7, so the score never reaches 1. *)
Theorem calculate_similarity_bounds (a b : string) :
  (0 <= _calculate_similarity a b)%Q
  /\ (_calculate_similarity a b <= 0.88)%Q
  /\ (_calculate_similarity a b < 1)%Q.
Proof.
  pose proof (calculate_similarity_range a b). repeat split; lra.
Qed.

(** ** Reason codes and phonetic keys *)

(** X6.  The reason for a pair of names is "identical" exactly when the two
    names are equal, is always one of the six reason texts, and does not
    depend on the order of the names. *)
Theorem get_similarity_reason_spec (name1 name2 : string) :
  (_get_similarity_reason name1 name2 = "identical" <-> name1 = name2)
  /\ In (_get_similarity_reason name1 name2)
        ["identical"; "shares prefix"; "sounds similar";
         "very close spelling"; "similar spelling"; "partially similar"]
  /\ _get_similarity_reason name1 name2 = _get_similarity_reason name2 name1.
Proof.
  split; [|split].
  - unfold _get_similarity_reason.
    destruct (String.eqb_spec name1 name2) as [E|N]; [tauto|].
    split; [|contradiction].
    destruct (startswith name1 name2 || startswith name2 name1);
      [discriminate|].
    destruct (String.eqb (_simplify_phonetic name1) (_simplify_phonetic name2));
      [discriminate|].
    cbv zeta.
    destruct (_levenshtein_distance name1 name2 <=? 2)%nat; [discriminate|].
    destruct (_levenshtein_distance name1 name2 <=? 4)%nat; discriminate.
  - unfold _get_similarity_reason. cbv zeta.
    destruct (String.eqb name1 name2); [simpl; tauto|].
    destruct (startswith name1 name2 || startswith name2 name1);
      [simpl; tauto|].
    destruct (String.eqb (_simplify_phonetic name1) (_simplify_phonetic name2));
      [simpl; tauto|].
    destruct (_levenshtein_distance name1 name2 <=? 2)%nat; [simpl; tauto|].
    destruct (_levenshtein_distance name1 name2 <=? 4)%nat; simpl; tauto.
  - unfold _get_similarity_reason. cbv zeta.
    rewrite (String.eqb_sym name2 name1),
      (orb_comm (startswith name2 name1)),
      (String.eqb_sym (_simplify_phonetic name2)),
      (levenshtein_distance_comm name2 name1).
    reflexivity.
Qed.

Lemma lower_char_idem c : lower_char (lower_char c) = lower_char c.
Proof. destruct c as [[] [] [] [] [] [] [] []]; reflexivity. Qed.

Lemma lower_idem s : lower (lower s) = lower s.
Proof.
  induction s as [|c s IH]; simpl; [reflexivity|].
  rewrite lower_char_idem, IH. reflexivity.
Qed.

Lemma lower_length s : String.length (lower s) = String.length s.
Proof. induction s as [|c s IH]; simpl; [reflexivity|]. rewrite IH. reflexivity. Qed.


Lemma append_length (s t : string) :
  String.length (s +:+ t) = (String.length s + String.length t)%nat.
Proof. induction s as [|c s IH]; simpl; [reflexivity|]. rewrite IH. reflexivity. Qed.







(** ** Matches of the static pass *)

Lemma firstn_incl {A} n (l : list A) x : In x (firstn n l) -> In x l.
Proof.
  revert l. induction n as [|n IH]; intros [|a l]; simpl; try tauto.
  intros [H|H]; [left; exact H|right; apply IH, H].
Qed.

Lemma firstn_NoDup {A} n (l : list A) :
  List.NoDup l -> List.NoDup (firstn n l).
Proof.
  revert l. induction n as [|n IH]; intros [|a l] H; simpl; try constructor.
  - inversion H; subst. intros Hin. apply firstn_incl in Hin. contradiction.
  - inversion H; subst. apply IH. assumption.
Qed.

Lemma firstn_map_NoDup {A B} (f : A -> B) n (l : list A) :
  List.NoDup (map f l) -> List.NoDup (map f (firstn n l)).
Proof. intros H. rewrite <- firstn_map. apply firstn_NoDup, H. Qed.

Lemma top5_incl l m : In m (firstn 5 (sort_by_score_desc l)) -> In m l.
Proof.
  intros H. apply firstn_incl in H.
  eapply Permutation_in; [symmetry; apply sort_by_score_desc_perm|exact H].
Qed.

Lemma top5_map_NoDup {B} (f : SimilarCompany -> B) l :
  List.NoDup (map f l) -> List.NoDup (map f (firstn 5 (sort_by_score_desc l))).
Proof.
  intros H. apply firstn_map_NoDup.
  eapply Permutation_NoDup; [|exact H].
  apply Permutation_map, sort_by_score_desc_perm.
Qed.

(** The candidates keep the catalogue's order and multiplicity of names. *)
Lemma static_candidates_NoDup {B} (f : string -> B) (g : SimilarCompany -> B)
    name_lower (l : list (string * string)) :
  (forall e m, In m (static_candidate name_lower e) -> g m = f (fst e)) ->
  List.NoDup (map (fun e => f (fst e)) l) ->
  List.NoDup (map g (flat_map (static_candidate name_lower) l)).
Proof.
  intros Hg. induction l as [|e l IH]; intros Hnd; simpl; [constructor|].
  inversion Hnd as [|? ? Hnotin Hrest]; subst.
  specialize (IH Hrest).
  destruct (static_candidate name_lower e) as [|m [|m' rest]] eqn:E.
  - exact IH.
  - simpl. constructor; [|exact IH].
    rewrite (Hg e m) by (rewrite E; left; reflexivity).
    intros Hin. apply Hnotin. apply in_map_iff in Hin.
    destruct Hin as [m2 [Hm2 Hin2]]. apply in_flat_map in Hin2.
    destruct Hin2 as [e2 [He2 Hin2]]. apply in_map_iff. exists e2.
    split; [|exact He2]. rewrite <- (Hg e2 m2 Hin2). exact Hm2.
  - exfalso. destruct e as [company ind]. unfold static_candidate in E.
    destruct (Qgtb _ _); discriminate.
Qed.

Lemma static_candidate_name name_lower e m :
  In m (static_candidate name_lower e) -> name m = title (fst e).
Proof.
  destruct e as [company ind]. unfold static_candidate. cbv zeta.
  destruct (Qgtb _ _); [|contradiction].
  intros [<-|[]]. reflexivity.
Qed.

Lemma catalogue_titles_NoDup :
  List.NoDup (map (fun e : string * string => title (fst e)) known_companies).
Proof.
  apply (NoDup_count_occ' string_dec). intros x Hin.
  repeat (destruct Hin as [<-|Hin]; [vm_compute; reflexivity|]).
  destruct Hin.
Qed.

(** X8.  Every match returned by the static pass is a catalogue entry under
    its title-cased name, with the entry's industry, the similarity of the
    lower-cased input to the entry as score, and that score above 0.5 and at
    most 0.88; no company is listed twice; and the result depends on the
    input only through its lower-cased form. *)
Theorem find_similar_static_matches (nm : string) :
  (forall m,
     In m (matches (_find_similar_static nm)) ->
     exists company ind,
       In (company, ind) known_companies
       /\ name m = title company
       /\ industry m = ind
       /\ similarity_score m = _calculate_similarity (lower nm) company
       /\ reason m = _get_similarity_reason (lower nm) company
       /\ (0.5 < similarity_score m)%Q
       /\ (similarity_score m <= 0.88)%Q)
  /\ List.NoDup (map name (matches (_find_similar_static nm)))
  /\ _find_similar_static (lower nm) = _find_similar_static nm.
Proof.
  split; [|split].
  - intros m Hin. unfold _find_similar_static in Hin. cbv zeta in Hin.
    cbn [matches] in Hin. apply top5_incl, in_flat_map in Hin.
    destruct Hin as [[company ind] [Hcat Hm]].
    unfold static_candidate in Hm. cbv zeta in Hm.
    destruct (Qgtb (_calculate_similarity (lower nm) company) 0.5) eqn:E;
      [|contradiction].
    destruct Hm as [<-|[]]. exists company, ind. simpl.
    repeat split; try assumption.
    + apply Qgtb_true, E.
    + apply calculate_similarity_range.
  - unfold _find_similar_static. cbv zeta. cbn [matches].
    apply top5_map_NoDup.
    apply (static_candidates_NoDup title name).
    + intros e m. apply static_candidate_name.
    + apply catalogue_titles_NoDup.
  - unfold _find_similar_static. rewrite lower_idem. reflexivity.
Qed.




(** ** More on the reconciliation *)

Lemma dedup_first_incl l m : In m (dedup_first l) -> In m l.
Proof.
  induction l as [|x l IH]; simpl; [tauto|].
  intros [H|H]; [left; exact H|].
  apply filter_In in H. right. apply IH. tauto.
Qed.

Lemma reconcile_matches_dedup static_matches oracle_matches :
  reconcile_matches static_matches oracle_matches
  = firstn 5 (sort_by_score_desc
                (dedup_first (oracle_matches ++ static_matches))).
Proof.
  unfold reconcile_matches. cbv zeta. rewrite append_absent_dedup_app.
  reflexivity.
Qed.

(** A match kept from the concatenation comes from the first list whenever
    the first list holds its lower-cased name. *)
Lemma dedup_first_app_origin l1 l2 m :
  In m (dedup_first (l1 ++ l2)) ->
  In m l1 \/ (In m l2 /\ ~ In (lower_name m) (map lower_name l1)).
Proof.
  rewrite <- append_absent_dedup_app, append_absent_dedup, in_app_iff.
  intros [H|H]; [left; apply dedup_first_incl, H|].
  apply filter_In in H. destruct H as [Hin Hp]. right.
  split; [apply dedup_first_incl, Hin|].
  intros Hk. apply dedup_first_keys in Hk. apply present_spec in Hk.
  rewrite Hk in Hp. discriminate.
Qed.

(** X10.  Every reconciled match is one of the oracle's matches or one of
    the static matches; a static match is kept only if the oracle has no
    match with the same lower-cased name; and no two reconciled matches
    share a lower-cased name. *)
Theorem merge_similar_results_matches (static llm : SimilarCompaniesResult) :
  (forall m,
     In m (matches (_merge_similar_results static llm)) ->
     In m (matches llm)
     \/ (In m (matches static)
         /\ ~ In (lower_name m) (map lower_name (matches llm))))
  /\ List.NoDup (map lower_name (matches (_merge_similar_results static llm))).
Proof.
  rewrite merge_matches_spec, reconcile_matches_dedup. split.
  - intros m Hin. apply top5_incl in Hin.
    apply dedup_first_app_origin, Hin.
  - apply top5_map_NoDup, dedup_first_NoDup.
Qed.

(** X11.  An oracle risk label outside low, medium and high ranks as low:
    it never replaces the static label. *)
Theorem merge_similar_results_unknown_risk
    (static llm : SimilarCompaniesResult) :
  risk_order !! confusion_risk llm = None ->
  confusion_risk (_merge_similar_results static llm) = confusion_risk static.
Proof.
  unfold _merge_similar_results. cbv zeta. cbn [confusion_risk].
  intros ->.
  destruct (_ <? _)%nat eqn:E; [|reflexivity].
  apply Nat.ltb_lt in E. simpl in E. lia.
Qed.

Lemma merge_similar_results_unknown_risk_witness :
  confusion_risk
    (_merge_similar_results {| matches := []; confusion_risk := "medium" |}
                            {| matches := []; confusion_risk := "severe" |})
  = "medium".
Proof.
  apply (merge_similar_results_unknown_risk
           {| matches := []; confusion_risk := "medium" |}
           {| matches := []; confusion_risk := "severe" |}).
  reflexivity.
Defined.

Lemma sort_by_score_desc_id l :
  Sorted score_ge l -> sort_by_score_desc l = l.
Proof.
  induction l as [|x l IH]; intros Hs; [reflexivity|].
  inversion Hs as [|? ? Hl Hhd]; subst. simpl. rewrite (IH Hl).
  destruct l as [|y l]; [reflexivity|]. simpl.
  inversion Hhd as [|? ? Hxy]; subst.
  destruct (Qgtb (similarity_score y) (similarity_score x)) eqn:E;
    [|reflexivity].
  apply Qgtb_true in E. exfalso. apply (Qlt_not_le _ _ E). exact Hxy.
Qed.

Lemma dedup_first_id l :
  List.NoDup (map lower_name l) -> dedup_first l = l.
Proof.
  induction l as [|x l IH]; intros Hnd; [reflexivity|].
  inversion Hnd as [|? ? Hnotin Hrest]; subst. simpl. rewrite (IH Hrest).
  f_equal. apply forallb_filter_id. apply forallb_forall. intros y Hy.
  destruct (same_lower_name x y) eqn:E; [|reflexivity].
  apply same_lower_name_true in E. exfalso. apply Hnotin. rewrite E.
  apply in_map, Hy.
Qed.

Lemma catalogue_lower_titles_NoDup :
  List.NoDup
    (map (fun e : string * string => lower (title (fst e))) known_companies).
Proof.
  apply (NoDup_count_occ' string_dec). intros x Hin.
  repeat (destruct Hin as [<-|Hin]; [vm_compute; reflexivity|]).
  destruct Hin.
Qed.

Lemma static_matches_lower_NoDup nm :
  List.NoDup (map lower_name (matches (_find_similar_static nm))).
Proof.
  unfold _find_similar_static. cbv zeta. cbn [matches].
  apply top5_map_NoDup.
  apply (static_candidates_NoDup (fun k => lower (title k)) lower_name).
  - intros e m Hin. unfold lower_name.
    rewrite (static_candidate_name _ _ _ Hin). reflexivity.
  - apply catalogue_lower_titles_NoDup.
Qed.

(** X12.  Reconciling the static result with an oracle result that has no
    matches and risk low gives back the static result. *)
Theorem merge_similar_results_empty_oracle (nm : string) :
  _merge_similar_results (_find_similar_static nm)
                         {| matches := []; confusion_risk := "low" |}
  = _find_similar_static nm.
Proof.
  assert (Hm : matches (_merge_similar_results (_find_similar_static nm)
                          {| matches := []; confusion_risk := "low" |})
               = matches (_find_similar_static nm)).
  { rewrite merge_matches_spec, reconcile_matches_dedup. cbn [matches app].
    rewrite dedup_first_id by apply static_matches_lower_NoDup.
    destruct (top5_sorted (flat_map (static_candidate (lower nm))
                                    known_companies)) as [Hlen Hsorted].
    unfold _find_similar_static. cbv zeta. cbn [matches].
    rewrite sort_by_score_desc_id by exact Hsorted.
    apply firstn_all2. exact Hlen. }
  assert (Hr : confusion_risk
                 (_merge_similar_results (_find_similar_static nm)
                    {| matches := []; confusion_risk := "low" |})
               = confusion_risk (_find_similar_static nm)).
  { unfold _merge_similar_results. cbv zeta. cbn [confusion_risk].
    change (risk_order !! "low") with (Some 0%nat).
    destruct (_ <? _)%nat eqn:E; [|reflexivity].
    apply Nat.ltb_lt in E. cbn [default from_option id] in E. lia. }
  destruct (_merge_similar_results _ _) as [ms rk].
  destruct (_find_similar_static nm) as [ms' rk'].
  simpl in Hm, Hr. subst. reflexivity.
Qed.

(** ** Evaluation without the oracle credential *)

Lemma env_truthy_unset (environ : gmap string string) key :
  environ !! key = None \/ environ !! key = Some "" ->
  env_truthy environ key = false.
Proof. unfold env_truthy. intros [->| ->]; reflexivity. Qed.

(** X13.  When ANTHROPIC_API_KEY is unset or empty, no oracle is consulted
    and nothing is printed: [evaluate] stores the static similarity result
    and the perception placeholder, whose mission alignment is 7.0 exactly
    when a non-empty mission is given; in the namecast variant the stored
    similarity result has no matches, risk low and sub-score 100. *)
Theorem evaluate_without_credential (ext : collaborators) (nm : string)
    (mission planned_domain : option string) :
  environ ext !! "ANTHROPIC_API_KEY" = None
  \/ environ ext !! "ANTHROPIC_API_KEY" = Some "" ->
  (exists r,
     evaluate ext nm mission = (Return r, [])
     /\ similar_companies r = _find_similar_static nm
     /\ perception r = placeholder_perception mission)
  /\ (exists r,
        Namecast.evaluate ext nm mission planned_domain = (Return r, [])
        /\ Namecast.similar_companies r
           = {| matches := []; confusion_risk := "low" |}
        /\ (Namecast.similar_companies_score r == 100)%Q
        /\ Namecast.perception r = placeholder_perception mission).
Proof.
  intros Henv. apply env_truthy_unset in Henv. split.
  - unfold evaluate, analyze_perception, find_similar_companies. cbv zeta.
    rewrite Henv. eexists. split; [reflexivity|]. split; reflexivity.
  - unfold Namecast.evaluate, analyze_perception,
      Namecast.find_similar_companies. cbv zeta.
    rewrite Henv. eexists. split; [reflexivity|].
    split; [reflexivity|]. split; reflexivity.
Qed.

Lemma evaluate_without_credential_witness :
  let ext := {| environ := ∅;
                whois := fun _ => Raise (TimeoutError "");
                llm_similar := fun _ => Raise (OtherException "");
                personas := fun _ _ _ => Raise (OtherException "") |} in
  (exists r,
     evaluate ext "Stripey" (Some "payments") = (Return r, [])
     /\ similar_companies r = _find_similar_static "Stripey"
     /\ perception r = placeholder_perception (Some "payments"))
  /\ (exists r,
        Namecast.evaluate ext "Stripey" (Some "payments") None = (Return r, [])
        /\ Namecast.similar_companies r
           = {| matches := []; confusion_risk := "low" |}
        /\ (Namecast.similar_companies_score r == 100)%Q
        /\ Namecast.perception r = placeholder_perception (Some "payments")).
Proof.
  cbv zeta.
  apply (evaluate_without_credential
           {| environ := ∅;
              whois := fun _ => Raise (TimeoutError "");
              llm_similar := fun _ => Raise (OtherException "");
              personas := fun _ _ _ => Raise (OtherException "") |}
           "Stripey" (Some "payments") None).
  left. reflexivity.
Defined.

(** ** Domain check *)

Lemma domains_of_lookup avail tld :
  In tld DEFAULT_TLDS -> domains_of avail !! tld = Some (avail tld).
Proof.
  unfold DEFAULT_TLDS, domains_of. simpl.
  intros [<-|[<-|[<-|[<-|[<-|[]]]]]];
    repeat first [ rewrite lookup_insert_eq; reflexivity
                 | rewrite lookup_insert_ne by discriminate ].
Qed.

(** X14.  [check_domains] reports exactly the five default TLDs; a TLD is
    reported available when the WHOIS call for the lower-cased name raises
    or yields no domain name, and taken when it yields one.  So when every
    WHOIS call fails the domain sub-score is 100. *)
Theorem check_domains_spec (lib : string -> py_result whois_entry)
    (nm : string) :
  dom (check_domains lib nm) = list_to_set DEFAULT_TLDS
  /\ (forall tld,
        In tld DEFAULT_TLDS ->
        check_domains lib nm !! tld
        = Some match lib (lower nm +:+ tld) with
               | Raise _ => true
               | Return w =>
                   match domain_name w with
                   | None | Some "" => true
                   | Some _ => false
                   end
               end)
  /\ ((forall domain, exists e, lib domain = Raise e) ->
      (_calc_domain_score (check_domains lib nm) == 100)%Q).
Proof.
  rewrite check_domains_domains_of. split; [|split].
  - unfold domains_of. rewrite dom_list_to_map_L.
    unfold DEFAULT_TLDS. simpl. reflexivity.
  - intros tld Hin. rewrite (domains_of_lookup _ _ Hin). f_equal.
    unfold whois_lookup.
    destruct (lib (lower nm +:+ tld)) as [w|e]; [|reflexivity].
    destruct (domain_name w) as [[|c d]|]; reflexivity.
  - intros Hfail.
    assert (Hall : domains_of
              (fun tld =>
                 bool_decide (whois_lookup lib (lower nm +:+ tld) = None))
            = domains_of (fun _ => true)).
    { unfold domains_of, DEFAULT_TLDS. simpl. unfold whois_lookup.
      repeat match goal with
             | |- context [lib ?d] =>
                 let e := fresh "e" in
                 let H := fresh "H" in
                 destruct (Hfail d) as [e H]; rewrite H; clear H
             end.
      reflexivity. }
    rewrite Hall. vm_compute. reflexivity.
Qed.

(** ** Social handles in the namecast variant *)

Lemma NoDup_snoc {A} (l : list A) a :
  List.NoDup l -> ~ In a l -> List.NoDup (l ++ [a]).
Proof.
  induction l as [|x l IH]; intros Hnd Ha; simpl.
  - repeat constructor. simpl. tauto.
  - inversion Hnd; subst. constructor.
    + rewrite in_app_iff. simpl. intros [H|[H|[]]]; [contradiction|].
      apply Ha. left. symmetry. exact H.
    + apply IH; [assumption|]. intros H. apply Ha. right. exact H.
Qed.

Lemma unique_step_eq nm (seen : gset string) (unique : list string) alt :
  Namecast.unique_step nm (seen, unique) alt
  = if bool_decide (alt ∉ seen) && negb (String.eqb alt nm)
    then ({[ alt ]} ∪ seen, (unique ++ [alt])%list)
    else (seen, unique).
Proof. reflexivity. Qed.

Lemma unique_step_fold nm (l : list string) :
  forall (seen : gset string) (unique : list string),
    (forall a, a ∈ seen <-> In a unique) ->
    List.NoDup unique ->
    ~ In nm unique ->
    let st := fold_left (Namecast.unique_step nm) l (seen, unique) in
    List.NoDup (snd st)
    /\ ~ In nm (snd st)
    /\ (forall a, In a unique -> In a (snd st))
    /\ (forall a, In a l -> a ≠ nm -> In a (snd st)).
Proof.
  induction l as [|alt l IH]; intros seen unique Hseen Hnd Hnm; cbn [fold_left].
  - cbv zeta. cbn [snd].
    split; [exact Hnd|split; [exact Hnm|split; [auto|intros a []]]].
  - cbv zeta. rewrite unique_step_eq.
    destruct (bool_decide (alt ∉ seen) && negb (String.eqb alt nm)) eqn:E.
    + apply andb_prop in E. destruct E as [Hfresh Hne].
      apply bool_decide_eq_true in Hfresh.
      apply negb_true_iff, String.eqb_neq in Hne.
      assert (Hseen' : forall a,
                a ∈ ({[alt]} ∪ seen : gset string)
                <-> In a (unique ++ [alt])%list).
      { intros a. rewrite elem_of_union, elem_of_singleton, in_app_iff, Hseen.
        simpl. intuition. }
      assert (Hnd' : List.NoDup (unique ++ [alt])%list).
      { apply NoDup_snoc; [exact Hnd|].
        intros Ha. apply Hfresh, Hseen, Ha. }
      assert (Hnm' : ~ In nm (unique ++ [alt])%list).
      { rewrite in_app_iff. simpl. intros [H|[H|[]]]; [contradiction|].
        apply Hne. exact H. }
      destruct (IH _ _ Hseen' Hnd' Hnm') as (H1 & H2 & H3 & H4).
      split; [exact H1|]. split; [exact H2|]. split.
      * intros a Ha. apply H3, in_app_iff. left. exact Ha.
      * intros a [<-|Ha] Hane; [|apply H4; assumption].
        apply H3, in_app_iff. right. left. reflexivity.
    + destruct (IH seen unique Hseen Hnd Hnm) as (H1 & H2 & H3 & H4).
      split; [exact H1|]. split; [exact H2|]. split; [exact H3|].
      intros a [<-|Ha] Hane; [|apply H4; assumption].
      apply H3, Hseen. apply andb_false_iff in E. destruct E as [E|E].
      * apply bool_decide_eq_false in E.
        destruct (decide (alt ∈ seen)); [assumption|contradiction].
      * apply negb_false_iff, String.eqb_eq in E. contradiction.
Qed.

Lemma append_suffix_ne (s t : string) : t ≠ "" -> s +:+ t ≠ s.
Proof.
  intros Ht H. apply (f_equal String.length) in H.
  rewrite append_length in H. destruct t; [contradiction|]. simpl in H. lia.
Qed.

(** The duplicate-free list built from alternatives that include [nm]
    followed by "hq". *)
Lemma unique_alternatives_facts nm (alternatives : list string) :
  In (nm +:+ "hq") alternatives ->
  let unique :=
    snd (fold_left (Namecast.unique_step nm) alternatives (∅, [])) in
  List.NoDup unique /\ ~ In nm unique /\ unique ≠ [].
Proof.
  intros Hhq.
  destruct (unique_step_fold nm alternatives ∅ [])
    as (Hnd & Hnm & _ & Hall).
  { intros a. rewrite elem_of_empty. simpl. tauto. }
  { constructor. }
  { simpl. tauto. }
  cbv zeta in *. split; [exact Hnd|]. split; [exact Hnm|].
  specialize (Hall _ Hhq (append_suffix_ne nm "hq" ltac:(discriminate))).
  intros E. rewrite E in Hall. destruct Hall.
Qed.

Lemma handle_alternatives_include_hq nm (from_domain : list string) :
  In (nm +:+ "hq")
     (from_domain ++
      [ nm +:+ "hq"; nm +:+ "app"; "get" +:+ nm; "try" +:+ nm; "use" +:+ nm;
        nm +:+ "_"; "_" +:+ nm; nm +:+ "io"; nm +:+ "ai"; "the" +:+ nm;
        nm +:+ "official" ])%list.
Proof. apply in_app_iff. right. left. reflexivity. Qed.

(** X15.  The alternative handles generated for a name are at most ten, are
    pairwise distinct, never include the name itself, and are never empty. *)
Theorem generate_handle_alternatives_spec (nm : string)
    (planned_domain : option string) :
  let alts := Namecast._generate_handle_alternatives nm planned_domain in
  (length alts <= 10)%nat
  /\ List.NoDup alts
  /\ ~ In nm alts
  /\ alts ≠ [].
Proof.
  unfold Namecast._generate_handle_alternatives. cbv zeta.
  set (from_domain := if opt_truthy planned_domain then _ else _).
  destruct (unique_alternatives_facts nm _
              (handle_alternatives_include_hq nm from_domain))
    as (Hnd & Hnm & Hne).
  split; [apply firstn_le_length|].
  split; [apply firstn_NoDup, Hnd|].
  split; [intros Hin; apply firstn_incl in Hin; contradiction|].
  destruct (snd _) as [|u us]; [contradiction|]. discriminate.
Qed.



Lemma namecast_check_social_lookup nm planned_domain platform :
  In platform DEFAULT_PLATFORMS ->
  Namecast.check_social nm planned_domain !! platform
  = Some (Namecast.Handle
            {| Namecast.platform := platform;
               Namecast.exact_available := true;
               Namecast.best_alternative :=
                 head (Namecast._generate_handle_alternatives
                         (lower nm) planned_domain);
               Namecast.alternatives_checked :=
                 lower nm :: Namecast._generate_handle_alternatives
                               (lower nm) planned_domain |}).
Proof.
  unfold Namecast.check_social, DEFAULT_PLATFORMS. cbv zeta.
  generalize (Namecast._generate_handle_alternatives (lower nm) planned_domain).
  intros alts. cbn [fold_left].
  intros [<-|[<-|[<-|[<-|[<-|[]]]]]];
    repeat first [ rewrite lookup_insert_eq; reflexivity
                 | rewrite lookup_insert_ne by discriminate ].
Qed.

(** X16.  The social check is a placeholder in both variants: every default
    platform is reported with the exact handle available, the namecast
    variant always proposes a best alternative, and the social sub-score is
    100 for every name. *)
Theorem social_check_placeholder (nm : string) (planned_domain : option string) :
  (forall platform,
     In platform DEFAULT_PLATFORMS -> check_social nm !! platform = Some true)
  /\ (_calc_social_score (check_social nm) == 100)%Q
  /\ (forall platform,
        In platform DEFAULT_PLATFORMS ->
        exists r alt,
          Namecast.check_social nm planned_domain !! platform
          = Some (Namecast.Handle r)
          /\ Namecast.exact_available r = true
          /\ Namecast.best_alternative r = Some alt
          /\ alt ≠ lower nm)
  /\ (Namecast._calc_social_score (Namecast.check_social nm planned_domain)
      == 100)%Q.
Proof.
  split; [|split; [|split]].
  - unfold check_social, DEFAULT_PLATFORMS. simpl.
    intros platform [<-|[<-|[<-|[<-|[<-|[]]]]]]; reflexivity.
  - vm_compute. reflexivity.
  - intros platform Hin.
    assert (Hhead : exists alt,
              head (Namecast._generate_handle_alternatives
                      (lower nm) planned_domain) = Some alt
              /\ alt ≠ lower nm).
    { unfold Namecast._generate_handle_alternatives. cbv zeta.
      set (from_domain := if opt_truthy planned_domain then _ else _).
      destruct (unique_alternatives_facts (lower nm) _
                  (handle_alternatives_include_hq (lower nm) from_domain))
        as (_ & Hnm & Hne).
      destruct (snd _) as [|u us]; [contradiction|].
      exists u. split; [reflexivity|].
      intros ->. apply Hnm. left. reflexivity. }
    destruct Hhead as [alt [Hhead Halt]]. eexists. exists alt.
    rewrite (namecast_check_social_lookup _ _ _ Hin), Hhead.
    split; [reflexivity|]. split; [reflexivity|].
    split; [reflexivity|exact Halt].
  - unfold Namecast.check_social. cbv zeta.
    generalize (Namecast._generate_handle_alternatives (lower nm) planned_domain).
    intros alts. vm_compute. reflexivity.
Qed.


(** ** Floor of the overall score *)

Lemma check_international_score_cases nm :
  (_calc_international_score (check_international nm) == 80)%Q
  \/ (_calc_international_score (check_international nm) == 100)%Q.
Proof.
  unfold check_international. cbv zeta.
  destruct (decide (lower nm = "mist")) as [E|N1];
    [rewrite E; left; vm_compute; reflexivity|].
  destruct (decide (lower nm = "nova")) as [E|N2];
    [rewrite E; left; vm_compute; reflexivity|].
  destruct (decide (lower nm = "fart")) as [E|N3];
    [rewrite E; right; vm_compute; reflexivity|].
  rewrite (problematic_lookup _ N1 N2 N3). right. vm_compute. reflexivity.
Qed.

Lemma calc_similar_companies_score_floor (r : SimilarCompaniesResult) :
  (20 <= _calc_similar_companies_score r)%Q.
Proof.
  unfold _calc_similar_companies_score.
  destruct (matches r); [lra|].
  destruct (String.eqb (confusion_risk r) "high"); [lra|].
  destruct (String.eqb (confusion_risk r) "medium"); lra.
Qed.

Lemma weighted_sum_floor (d s t p i c : Q) :
  (0 <= d -> s == 100 -> t == 100 -> 0 <= p -> 80 <= i -> 20 <= c ->
   46 <= d * 0.20 + s * 0.10 + t * 0.20 + p * 0.15 + i * 0.15 + c * 0.20)%Q.
Proof. intros. lra. Qed.

(** X17.  In both variants the overall score of every evaluation is at
    least 46: the social and trademark checks are placeholders worth 100
    each, the international sub-score is at least 80 and the similar-company
    sub-score at least 20. *)
Theorem overall_score_floor :
  (forall ext nm mission,
     exists r,
       fst (evaluate ext nm mission) = Return r
       /\ (social_score r == 100)%Q /\ (trademark_score r == 100)%Q
       /\ (80 <= international_score r)%Q
       /\ (20 <= similar_companies_score r)%Q
       /\ (46 <= overall_score r)%Q)
  /\ (forall ext nm mission planned_domain,
        exists r,
          fst (Namecast.evaluate ext nm mission planned_domain) = Return r
          /\ (Namecast.social_score r == 100)%Q
          /\ (Namecast.trademark_score r == 100)%Q
          /\ (80 <= Namecast.international_score r)%Q
          /\ (20 <= Namecast.similar_companies_score r)%Q
          /\ (46 <= Namecast.overall_score r)%Q).
Proof.
  assert (Hintl : forall nm,
            (80 <= _calc_international_score (check_international nm))%Q).
  { intros nm. destruct (check_international_score_cases nm) as [H|H];
      rewrite H; lra. }
  assert (Hsoc : forall nm, (_calc_social_score (check_social nm) == 100)%Q).
  { intros nm. unfold check_social. vm_compute. reflexivity. }
  assert (Hnsoc : forall nm pd,
            (Namecast._calc_social_score (Namecast.check_social nm pd)
             == 100)%Q).
  { intros nm pd. unfold Namecast.check_social. cbv zeta.
    generalize (Namecast._generate_handle_alternatives (lower nm) pd).
    intros alts. vm_compute. reflexivity. }
  assert (Htm : forall nm,
            (_calc_trademark_score (check_trademark nm) == 100)%Q).
  { intros nm. reflexivity. }
  split.
  - intros ext nm mission. unfold evaluate. cbv zeta.
    destruct (analyze_perception _ _ nm mission) as [perception out1].
    pose proof (analyze_pronunciation_score_bounds nm) as Hp.
    set (pron := analyze_pronunciation nm) in *. clearbody pron.
    pose proof (calc_domain_score_bounds (check_domains (whois ext) nm)) as Hd.
    unfold find_similar_companies. cbv zeta.
    destruct (env_truthy (environ ext) "ANTHROPIC_API_KEY");
      [destruct (llm_similar ext nm) as [llm_result|e]|];
      (eexists; split; [reflexivity|];
       cbn [social_score trademark_score international_score
            similar_companies_score overall_score];
       split; [apply Hsoc|]; split; [apply Htm|]; split; [apply Hintl|];
       split; [apply calc_similar_companies_score_floor|];
       apply weighted_sum_floor;
       [ apply Hd | apply Hsoc | apply Htm | lra | apply Hintl
       | apply calc_similar_companies_score_floor ]).
  - intros ext nm mission planned_domain. unfold Namecast.evaluate. cbv zeta.
    destruct (analyze_perception _ _ nm mission) as [perception out1].
    pose proof (analyze_pronunciation_score_bounds nm) as Hp.
    set (pron := analyze_pronunciation nm) in *. clearbody pron.
    pose proof (calc_domain_score_bounds (check_domains (whois ext) nm)) as Hd.
    unfold Namecast.find_similar_companies. cbv zeta.
    destruct (env_truthy (environ ext) "ANTHROPIC_API_KEY");
      [destruct (llm_similar ext nm) as [llm_result|e]|];
      (eexists; split; [reflexivity|];
       cbn [Namecast.social_score Namecast.trademark_score
            Namecast.international_score Namecast.similar_companies_score
            Namecast.overall_score];
       split; [apply Hnsoc|]; split; [apply Htm|]; split; [apply Hintl|];
       split; [apply calc_similar_companies_score_floor|];
       apply weighted_sum_floor;
       [ apply Hd | apply Hnsoc | apply Htm | lra | apply Hintl
       | apply calc_similar_companies_score_floor ]).
Qed.

(** ** Pronunciation analysis *)

Lemma append_cons c (s t : string) : String c s +:+ t = String c (s +:+ t).
Proof. reflexivity. Qed.

Lemma startswith_app s : forall p,
  startswith s p = true <-> exists post, s = p +:+ post.
Proof.
  induction s as [|a s IH]; intros [|b p]; simpl.
  - split; [exists ""; reflexivity|reflexivity].
  - split; [discriminate|intros [post H]; discriminate].
  - split; [exists (String a s); reflexivity|reflexivity].
  - destruct (Ascii.eqb_spec a b) as [->|Hne].
    + rewrite IH.
      split; intros [post H]; exists post; rewrite append_cons in *; congruence.
    + split; [discriminate|]. intros [post H]. rewrite append_cons in H.
      congruence.
Qed.

Lemma contains_app p s :
  contains p s = true <-> exists pre post, s = pre +:+ p +:+ post.
Proof.
  induction s as [|a s IH]; cbn [contains].
  - rewrite orb_false_r, startswith_app. split.
    + intros [post H]. exists "", post. exact H.
    + intros [[|c pre] [post H]]; [exists post; exact H|discriminate].
  - rewrite orb_true_iff, startswith_app, IH. split.
    + intros [[post H]|[pre [post H]]].
      * exists "", post. exact H.
      * exists (String a pre), post. rewrite append_cons, H. reflexivity.
    + intros [[|c pre] [post H]].
      * left. exists post. exact H.
      * right. exists pre, post. rewrite append_cons in H. congruence.
Qed.

Lemma append_assoc (a b c : string) : (a +:+ b) +:+ c = a +:+ (b +:+ c).
Proof.
  induction a as [|x a IH]; [reflexivity|].
  rewrite !append_cons, IH. reflexivity.
Qed.

Lemma contains_ough_gh s : contains "ough" s = true -> contains "gh" s = true.
Proof.
  rewrite !contains_app. intros [pre [post H]].
  exists (pre +:+ "ou"), post. rewrite H, append_assoc. reflexivity.
Qed.

Lemma syllable_fold_le (l : list ascii) :
  forall count prev,
    (fst (fold_left syllable_step l (count, prev)) <= count + length l)%nat.
Proof.
  induction l as [|c l IH]; intros count prev; cbn [fold_left length].
  - simpl. lia.
  - unfold syllable_step at 2.
    destruct (char_in c "aeiouy" && negb prev);
      etransitivity; [apply IH|lia|apply IH|lia].
Qed.

Lemma list_ascii_length s :
  length (list_ascii_of_string s) = String.length s.
Proof. induction s as [|c s IH]; simpl; [reflexivity|]. rewrite IH. reflexivity. Qed.

(** X18.  For every name the syllable count is at least 1 and at most the
    length of the name (1 for the empty name); the spelling difficulty is
    "hard" exactly when the lower-cased name contains "ph" or "gh", "easy"
    exactly when it contains none of ph, gh, ough, tion, sion, xc, cq, and
    "medium" otherwise; and the analysis ignores case. *)
Theorem analyze_pronunciation_spec (nm : string) :
  let r := analyze_pronunciation nm in
  (1 <= syllables r)%nat
  /\ (syllables r <= Nat.max 1 (String.length nm))%nat
  /\ (spelling_difficulty r = "hard"
      <-> contains "ph" (lower nm) || contains "gh" (lower nm) = true)
  /\ (spelling_difficulty r = "easy"
      <-> existsb (fun u => contains u (lower nm))
                  ["ph"; "gh"; "ough"; "tion"; "sion"; "xc"; "cq"] = false)
  /\ In (spelling_difficulty r) ["easy"; "medium"; "hard"]
  /\ analyze_pronunciation (lower nm) = r.
Proof.
  cbv zeta. split; [|split; [|split; [|split; [|split]]]].
  - unfold analyze_pronunciation, _count_syllables. cbv zeta.
    cbn [syllables]. lia.
  - unfold analyze_pronunciation, _count_syllables. cbv zeta.
    cbn [syllables].
    pose proof (syllable_fold_le (list_ascii_of_string (lower nm)) 0 false)
      as H.
    rewrite list_ascii_length, lower_length in H.
    destruct (endswith (lower nm) "e" && _); lia.
  - unfold analyze_pronunciation, _is_phonetic. cbv zeta.
    cbn [spelling_difficulty existsb].
    pose proof (contains_ough_gh (lower nm)) as Hough.
    destruct (contains "ph" (lower nm)); [cbn; tauto|].
    destruct (contains "gh" (lower nm)); [cbn; tauto|].
    destruct (contains "ough" (lower nm));
      [specialize (Hough eq_refl); discriminate|].
    cbn [orb negb].
    destruct (negb _); split; discriminate.
  - unfold analyze_pronunciation, _is_phonetic. cbv zeta.
    cbn [spelling_difficulty].
    destruct (existsb (fun u => contains u (lower nm))
                ["ph"; "gh"; "ough"; "tion"; "sion"; "xc"; "cq"]);
      cbn [negb]; [|tauto].
    destruct (existsb _ _); split; discriminate.
  - unfold analyze_pronunciation. cbv zeta. cbn [spelling_difficulty].
    destruct (_is_phonetic nm); [simpl; tauto|].
    destruct (existsb _ _); simpl; tauto.
  - unfold analyze_pronunciation, _count_syllables, _is_phonetic.
    rewrite !lower_idem. reflexivity.
Qed.

(** ** Persona oracle *)

Lemma Qle_ratio (a : Q) (m n : nat) :
  (0 < n)%nat ->
  ((a <= Q_of_nat m / Q_of_nat n) <-> (a * Q_of_nat n <= Q_of_nat m))%Q.
Proof.
  intros Hn. pose proof (Q_of_nat_pos n Hn) as Hpos. split; intros H.
  - apply (Qmult_le_compat_r _ _ (Q_of_nat n)) in H; [|lra].
    rewrite Qmult_comm, (Qmult_comm (_ / _)), Qmult_div_r in H; [|lra].
    rewrite Qmult_comm. exact H.
  - apply Qle_shift_div_l; assumption.
Qed.

Lemma memorable_rate_high (m n : nat) :
  (0 < n)%nat ->
  Qle_bool 0.8 (Q_of_nat m / Q_of_nat n) = true <-> (4 * n <= 5 * m)%nat.
Proof.
  intros Hn. rewrite Qle_bool_iff, (Qle_ratio _ _ _ Hn).
  unfold Q_of_nat, Qle. simpl. lia.
Qed.

Lemma memorable_rate_medium (m n : nat) :
  (0 < n)%nat ->
  Qle_bool 0.5 (Q_of_nat m / Q_of_nat n) = true <-> (n <= 2 * m)%nat.
Proof.
  intros Hn. rewrite Qle_bool_iff, (Qle_ratio _ _ _ Hn).
  unfold Q_of_nat, Qle. simpl. lia.
Qed.

Lemma count_if_le f l : (Perception.count_if f l <= length l)%nat.
Proof.
  unfold Perception.count_if. induction l as [|x l IH]; simpl; [lia|].
  destruct (f x); simpl; lia.
Qed.

Section aggregate.
Variable order : gset string -> list string.
Hypothesis order_elements : forall s, Permutation (order s) (elements s).

Lemma unique_industries_facts (industries : list string) :
  let unique := firstn 4 (order (list_to_set industries)) in
  (length unique <= 4)%nat
  /\ List.NoDup unique
  /\ (forall i, In i unique -> In i industries).
Proof.
  cbv zeta. split; [apply firstn_le_length|]. split.
  - apply firstn_NoDup, NoDup_ListNoDup.
    rewrite order_elements. apply NoDup_elements.
  - intros i Hin. apply firstn_incl in Hin.
    apply (Permutation_in _ (order_elements _)) in Hin.
    apply list_elem_of_In, elem_of_elements, elem_of_list_to_set in Hin.
    apply list_elem_of_In. exact Hin.
Qed.

Lemma aggregate_responses_shape r0 rs nm mission client a :
  let responses := r0 :: rs in
  Perception._aggregate_responses order responses nm mission client = Return a ->
  Perception.persona_responses a = responses
  /\ Perception.consensus_score a
     = ((Q_of_nat (Perception.count_if Perception.would_trust responses)
         / Q_of_nat (length responses)
         + Q_of_nat (Perception.count_if Perception.memorable responses)
           / Q_of_nat (length responses)) / 2)%Q
  /\ Perception.pa_memorability a
     = (if Qle_bool 0.8
             (Q_of_nat (Perception.count_if Perception.memorable responses)
              / Q_of_nat (length responses))
        then "high"
        else if Qle_bool 0.5
                  (Q_of_nat (Perception.count_if Perception.memorable responses)
                   / Q_of_nat (length responses))
        then "medium" else "low")
  /\ Perception.pa_industry_association a
     = firstn 4 (order (list_to_set (map Perception.industry_guess responses))).
Proof.
  cbv zeta. unfold Perception._aggregate_responses. cbv zeta.
  destruct (opt_truthy mission).
  - destruct (Perception._evaluate_mission_alignment _ _ _ _)
      as [[sc|] [ex|]|]; try discriminate.
    intros [= <-]. repeat split.
  - intros [= <-]. repeat split.
Qed.

(** X19.  Whatever [_aggregate_responses] returns keeps the responses it was
    given; its consensus score lies between 0 and 1; its memorability is
    "high" exactly when at least four fifths of the responses find the name
    memorable, "low" exactly when fewer than half do, and "medium"
    otherwise; and its industries are at most four, pairwise distinct, and
    are guesses of the responses whenever there is a response. *)
Theorem aggregate_responses_spec
    (responses : list Perception.PersonaResponse) (nm : string)
    (mission : option string) (client : Perception.llm_client)
    (a : Perception.PerceptionAnalysis) :
  Perception._aggregate_responses order responses nm mission client = Return a ->
  let n := length responses in
  let m := Perception.count_if Perception.memorable responses in
  Perception.persona_responses a = responses
  /\ (0 <= Perception.consensus_score a <= 1)%Q
  /\ (Perception.pa_memorability a = "high" <-> (4 * n <= 5 * m)%nat)
  /\ (Perception.pa_memorability a = "low" <-> (2 * m < n)%nat)
  /\ In (Perception.pa_memorability a) ["high"; "medium"; "low"]
  /\ (length (Perception.pa_industry_association a) <= 4)%nat
  /\ List.NoDup (Perception.pa_industry_association a)
  /\ (responses ≠ [] ->
      forall i, In i (Perception.pa_industry_association a) ->
                exists r, In r responses /\ Perception.industry_guess r = i).
Proof.
  destruct responses as [|r0 rs].
  - intros [= <-]. cbv zeta. unfold Perception.no_response_analysis.
    cbn [Perception.persona_responses Perception.consensus_score
         Perception.pa_memorability Perception.pa_industry_association
         Perception.count_if List.filter length].
    split; [reflexivity|]. split; [lra|].
    split; [split; [lia|reflexivity]|].
    split; [split; [discriminate|lia]|].
    split; [left; reflexivity|].
    split; [lia|].
    split; [|intros H; contradiction].
    repeat constructor; simpl; intuition discriminate.
  - intros Hagg. apply aggregate_responses_shape in Hagg.
    destruct Hagg as (Hresp & Hcons & Hmem & Hind). cbv zeta.
    set (responses := r0 :: rs) in *.
    assert (Hn : (0 < length responses)%nat) by (simpl; lia).
    pose proof (count_if_le Perception.would_trust responses) as Ht.
    pose proof (count_if_le Perception.memorable responses) as Hm.
    destruct (Q_ratio_bounds _ _ Ht Hn) as [Ht0 Ht1].
    destruct (Q_ratio_bounds _ _ Hm Hn) as [Hm0 Hm1].
    destruct (unique_industries_facts
                (map Perception.industry_guess responses))
      as (Hlen & Hnd & Hfrom).
    rewrite Hcons, Hmem, Hind.
    split; [exact Hresp|]. split.
    { revert Ht0 Ht1 Hm0 Hm1.
      generalize (Q_of_nat (Perception.count_if Perception.would_trust responses)
                  / Q_of_nat (length responses))%Q.
      generalize (Q_of_nat (Perception.count_if Perception.memorable responses)
                  / Q_of_nat (length responses))%Q.
      intros mr tr Ht0 Ht1 Hm0 Hm1.
      split.
      - apply Qle_shift_div_l; lra.
      - apply Qle_shift_div_r; lra. }
    assert (Hfrom' : responses ≠ [] ->
              forall i,
                In i (firstn 4 (order (list_to_set
                        (map Perception.industry_guess responses)))) ->
                exists r, In r responses /\ Perception.industry_guess r = i).
    { intros _ i Hi. apply Hfrom, in_map_iff in Hi.
      destruct Hi as [r [Hr Hin]]. exists r. tauto. }
    destruct (Qle_bool 0.8 _) eqn:E8; [| destruct (Qle_bool 0.5 _) eqn:E5].
    + apply (memorable_rate_high _ _ Hn) in E8.
      split; [split; auto|].
      split; [split; [discriminate|lia]|].
      split; [left; reflexivity|]. auto.
    + assert (N8 : ~ (4 * length responses
                      <= 5 * Perception.count_if Perception.memorable responses)%nat)
        by (rewrite <- (memorable_rate_high _ _ Hn); congruence).
      apply (memorable_rate_medium _ _ Hn) in E5.
      split; [split; [discriminate|contradiction]|].
      split; [split; [discriminate|lia]|].
      split; [right; left; reflexivity|]. auto.
    + assert (N8 : ~ (4 * length responses
                      <= 5 * Perception.count_if Perception.memorable responses)%nat)
        by (rewrite <- (memorable_rate_high _ _ Hn); congruence).
      assert (N5 : ~ (length responses
                      <= 2 * Perception.count_if Perception.memorable responses)%nat)
        by (rewrite <- (memorable_rate_medium _ _ Hn); congruence).
      split; [split; [discriminate|contradiction]|].
      split; [split; [lia|reflexivity]|].
      split; [right; right; left; reflexivity|]. auto.
Qed.
End aggregate.



Lemma persona_fold client nm mission (ps : list Perception.persona_profile) :
  forall responses out,
  exists R O,
    fold_left (Perception.persona_step client nm mission) ps (responses, out)
    = ((responses ++ R)%list, (out ++ O)%list)
    /\ sublist (map Perception.persona R) (map Perception.p_name ps)
    /\ (length R + length O = length ps)%nat
    /\ ((forall p, In p ps ->
           exists e, Perception.persona_reply client p nm mission = Raise e) ->
        R = [])
    /\ ((exists p result,
           In p ps
           /\ Perception.persona_reply client p nm mission = Return result) ->
        R ≠ []).
Proof.
  induction ps as [|p ps IH]; intros responses out.
  - exists [], []. rewrite !app_nil_r.
    split; [reflexivity|]. split; [constructor|]. split; [reflexivity|].
    split; [reflexivity|]. intros (p & result & [] & _).
  - cbn [fold_left]. unfold Perception.persona_step at 2.
    unfold Perception._query_persona.
    destruct (Perception.persona_reply client p nm mission) as [result|e] eqn:E.
    + match goal with
      | |- context [(responses ++ [?r])%list] => set (resp := r)
      end.
      destruct (IH (responses ++ [resp])%list (out ++ [])%list)
        as (R & O & Hfold & Hsub & Hlen & _ & _).
      exists (resp :: R), O. rewrite Hfold, <- !app_assoc, app_nil_l. simpl.
      split; [reflexivity|]. split; [constructor; exact Hsub|].
      split; [lia|]. split; [|discriminate]. intros Hall.
      destruct (Hall p (or_introl eq_refl)) as [e He]. congruence.
    + match goal with
      | |- context [(out ++ [?r])%list] => set (line := r)
      end.
      destruct (IH responses (out ++ [line])%list)
        as (R & O & Hfold & Hsub & Hlen & Hnone & Hsome).
      exists R, (line :: O). rewrite Hfold, <- !app_assoc. simpl.
      split; [reflexivity|]. split; [constructor; exact Hsub|].
      split; [lia|]. split.
      * intros Hall. apply Hnone.
        intros q Hq. apply Hall. right. exact Hq.
      * intros (q & result & [<-|Hq] & Hr); [congruence|].
        apply Hsome. exists q, result. tauto.
Qed.




Lemma aggregate_alignment_default order r0 rs nm mission client :
  opt_truthy mission = true ->
  (forall ev, exists e,
     Perception.alignment_reply client nm (default "" mission) ev = Raise e) ->
  exists a,
    Perception._aggregate_responses order (r0 :: rs) nm mission client = Return a
    /\ Perception.pa_mission_alignment a = Some 5.0%Q
    /\ Perception.mission_explanation a = Some "Unable to evaluate alignment.".
Proof.
  intros Hm Hfail. unfold Perception._aggregate_responses. cbv zeta.
  rewrite Hm. unfold Perception._evaluate_mission_alignment.
  match goal with
  | |- context [Perception.alignment_reply client nm _ ?ev] =>
      destruct (Hfail ev) as [e He]; rewrite He
  end.
  eexists. split; [reflexivity|]. split; reflexivity.
Qed.

Lemma aggregate_alignment_no_score order r0 rs nm mission client :
  opt_truthy mission = true ->
  (forall ev, exists ex,
     Perception.alignment_reply client nm (default "" mission) ev
     = Return (Perception.AlignObject None ex)) ->
  Perception._aggregate_responses order (r0 :: rs) nm mission client
  = Raise (KeyError "'score'").
Proof.
  intros Hm Hfail. unfold Perception._aggregate_responses. cbv zeta.
  rewrite Hm. unfold Perception._evaluate_mission_alignment.
  match goal with
  | |- context [Perception.alignment_reply client nm _ ?ev] =>
      destruct (Hfail ev) as [ex He]; rewrite He
  end.
  reflexivity.
Qed.

(** X21.  With the credential set and a non-empty mission, the perception
    returned by [analyze_perception] depends on where the oracle fails: when
    no persona answers, the fallback analysis is passed on and there is no
    mission alignment; when a persona answers and the alignment request
    fails, the alignment is 5.0; when a persona answers and the alignment
    reply has no score, the KeyError is caught and the placeholder with
    alignment 7.0 is returned. *)
Theorem analyze_perception_with_personas
    (order : gset string -> list string) (environ : gmap string string)
    (client : Perception.llm_client) (nm : string) (mission : option string) :
  env_truthy environ "ANTHROPIC_API_KEY" = true ->
  opt_truthy mission = true ->
  let run :=
    analyze_perception environ (personas_oracle order (Return client))
                       nm mission in
  ((forall p, exists e,
      Perception.persona_reply client p nm mission = Raise e) ->
   fst run = {| evokes := "professional, modern";
                industry_association := ["technology"; "business"];
                memorability := "high";
                mission_alignment := None |})
  /\ ((exists p result,
         In p Perception.PERSONAS
         /\ Perception.persona_reply client p nm mission = Return result) ->
      (forall ev, exists e,
         Perception.alignment_reply client nm (default "" mission) ev
         = Raise e) ->
      mission_alignment (fst run) = Some 5.0%Q)
  /\ ((exists p result,
         In p Perception.PERSONAS
         /\ Perception.persona_reply client p nm mission = Return result) ->
      (forall ev, exists ex,
         Perception.alignment_reply client nm (default "" mission) ev
         = Return (Perception.AlignObject None ex)) ->
      fst run = placeholder_perception mission).
Proof.
  intros Henv Hm. cbv zeta.
  unfold analyze_perception, personas_oracle,
    Perception.analyze_with_personas. cbv zeta. rewrite Henv.
  change (Perception.slice_to (Z.of_nat 5) Perception.PERSONAS)
    with Perception.PERSONAS.
  destruct (persona_fold client nm mission Perception.PERSONAS [] [])
    as (R & O & Hfold & _ & _ & Hnone & Hsome).
  rewrite Hfold. cbn [app fst snd]. split; [|split].
  - intros Hall. rewrite Hnone by (intros p _; apply Hall). reflexivity.
  - intros Hans Hfail. specialize (Hsome Hans).
    destruct R as [|r0 rs]; [contradiction|].
    destruct (aggregate_alignment_default order r0 rs nm mission client
                Hm Hfail) as (a & Ha & Hal & _).
    rewrite Ha. cbn [fst snd mission_alignment].
    rewrite <- Hal. reflexivity.
  - intros Hans Hfail. specialize (Hsome Hans).
    destruct R as [|r0 rs]; [contradiction|].
    rewrite (aggregate_alignment_no_score order r0 rs nm mission client
               Hm Hfail).
    reflexivity.
Qed.

(** ** HTTP front end *)

Lemma namecast_evaluate_returns ext nm mission planned_domain :
  exists r out,
    Namecast.evaluate ext nm mission planned_domain = (Return r, out)
    /\ Namecast.er_name r = nm.
Proof.
  unfold Namecast.evaluate. cbv zeta.
  destruct (analyze_perception _ _ nm mission) as [perception out1].
  unfold Namecast.find_similar_companies. cbv zeta.
  destruct (env_truthy (environ ext) "ANTHROPIC_API_KEY");
    [destruct (llm_similar ext nm) as [llm_result|e]|];
    (eexists; eexists; split; reflexivity).
Qed.

Lemma evaluate_all_returns exts names mission :
  forall i,
  exists rs out,
    Api.evaluate_all exts i names mission = (Return rs, out)
    /\ map Namecast.er_name rs = names.
Proof.
  induction names as [|nm rest IH]; intros i; cbn [Api.evaluate_all].
  - exists [], []. split; reflexivity.
  - destruct (namecast_evaluate_returns (exts i) nm mission None)
      as (r & out & He & Hname).
    destruct (IH (S i)) as (rs & out' & Hall & Hnames).
    rewrite He, Hall. exists (r :: rs), (out ++ out')%list.
    split; [reflexivity|]. simpl. rewrite Hname, Hnames. reflexivity.
Qed.

(** The element chosen by [max_from]: the first one of greatest key. *)
Lemma max_from_first_greatest {A} (key : A -> Q) (l : list A) :
  forall pre best mid,
    (forall y, In y pre -> (key y < key best)%Q) ->
    (forall y, In y mid -> (key y <= key best)%Q) ->
    exists pre' post',
      (pre ++ best :: mid ++ l)%list
      = (pre' ++ Api.max_from key best l :: post')%list
      /\ (forall y, In y pre' -> (key y < key (Api.max_from key best l))%Q)
      /\ (forall y, In y post' -> (key y <= key (Api.max_from key best l))%Q).
Proof.
  induction l as [|x l IH]; intros pre best mid Hpre Hmid; cbn [Api.max_from].
  - exists pre, mid. rewrite app_nil_r. auto.
  - destruct (Qgtb (key x) (key best)) eqn:E.
    + apply Qgtb_true in E.
      destruct (IH (pre ++ best :: mid)%list x []) as (pre' & post' & Heq & H).
      * intros y Hy. apply in_app_iff in Hy. destruct Hy as [Hy|[<-|Hy]].
        -- eapply Qlt_trans; [apply Hpre, Hy|exact E].
        -- exact E.
        -- eapply Qle_lt_trans; [apply Hmid, Hy|exact E].
      * intros y [].
      * exists pre', post'. split; [|exact H].
        rewrite <- Heq, <- app_assoc. reflexivity.
    + apply Qgtb_false in E.
      destruct (IH pre best (mid ++ [x])%list) as (pre' & post' & Heq & H).
      * exact Hpre.
      * intros y Hy. apply in_app_iff in Hy.
        destruct Hy as [Hy|[<-|[]]]; [apply Hmid, Hy|exact E].
      * exists pre', post'. split; [|exact H].
        rewrite <- Heq, <- app_assoc. reflexivity.
Qed.

Lemma check_password_cases pw headers :
  (Api.check_password pw headers = Api.Ok tt
   /\ (opt_truthy pw = false \/ headers !! "X-API-Password" = pw))
  \/ (Api.check_password pw headers
      = Api.HTTPException 401 "Invalid API password"
      /\ opt_truthy pw = true /\ headers !! "X-API-Password" ≠ pw).
Proof.
  unfold Api.check_password.
  destruct (opt_truthy pw) eqn:Hpw; cbn [negb]; [|left; auto].
  destruct pw as [p|]; [|discriminate]. cbn [default from_option id].
  destruct (String.eqb_spec (default "" (headers !! "X-API-Password")) p)
    as [E|N]; cbn [negb].
  - left. split; [reflexivity|]. right.
    destruct (headers !! "X-API-Password") as [h|]; simpl in E.
    + congruence.
    + subst p. discriminate.
  - right. split; [reflexivity|]. split; [reflexivity|].
    intros H. rewrite H in N. apply N. reflexivity.
Qed.

(** X22.  The password gate lets a request through exactly when no password
    is configured or the X-API-Password header equals the configured one;
    otherwise [/evaluate] answers 401 without evaluating.  Behind the gate a
    name of fewer than two characters is answered 400, and any other name
    is evaluated once, without planned domain, and its record returned. *)
Theorem api_evaluate_spec (pw : option string) (ext : collaborators)
    (request : Api.EvaluateRequest) (headers : gmap string string) :
  let allowed :=
    opt_truthy pw = false \/ headers !! "X-API-Password" = pw in
  let nm := Api.rq_name request in
  (Api.check_password pw headers = Api.Ok tt <-> allowed)
  /\ (~ allowed ->
      Api.evaluate pw ext request headers
      = (Api.HTTPException 401 "Invalid API password", []))
  /\ (allowed -> (String.length nm < 2)%nat ->
      Api.evaluate pw ext request headers
      = (Api.HTTPException 400 "Name must be at least 2 characters", []))
  /\ (allowed -> (2 <= String.length nm)%nat ->
      exists r out,
        Api.evaluate pw ext request headers = (Api.Ok r, out)
        /\ Namecast.evaluate ext nm (Api.rq_mission request) None
           = (Return r, out)
        /\ Namecast.er_name r = nm).
Proof.
  cbv zeta. unfold Api.evaluate.
  destruct (check_password_cases pw headers) as [[Hok Hal]|[Hbad [Hpw Hne]]].
  - rewrite Hok. split; [tauto|]. split; [tauto|]. split.
    + intros _ Hlen.
      destruct (String.eqb (Api.rq_name request) ""); [reflexivity|].
      cbn [orb]. apply Nat.ltb_lt in Hlen. rewrite Hlen. reflexivity.
    + intros _ Hlen.
      destruct (String.eqb_spec (Api.rq_name request) "") as [E|_];
        [rewrite E in Hlen; simpl in Hlen; lia|].
      cbn [orb]. rewrite (proj2 (Nat.ltb_ge _ _) Hlen).
      destruct (namecast_evaluate_returns ext (Api.rq_name request)
                  (Api.rq_mission request) None) as (r & out & He & Hname).
      rewrite He. exists r, out. auto.
  - rewrite Hbad.
    assert (Hnot : ~ (opt_truthy pw = false
                      \/ headers !! "X-API-Password" = pw)).
    { intros [H|H]; [congruence|contradiction]. }
    split; [split; [discriminate|contradiction]|].
    split; [reflexivity|]. split; intros H; contradiction.
Qed.

(** X23.  Behind the same gate, [/compare] answers 400 to fewer than two
    names.  Otherwise it evaluates every name in order and names as winner
    the first result of greatest overall score: earlier results score
    strictly less and later ones at most as much. *)
Theorem api_compare_spec (pw : option string) (exts : nat -> collaborators)
    (request : Api.CompareRequest) (headers : gmap string string) :
  let allowed :=
    opt_truthy pw = false \/ headers !! "X-API-Password" = pw in
  let names := Api.rq_names request in
  (~ allowed ->
   Api.compare pw exts request headers
   = (Api.HTTPException 401 "Invalid API password", []))
  /\ (allowed -> (length names < 2)%nat ->
      Api.compare pw exts request headers
      = (Api.HTTPException 400 "Must provide at least 2 names to compare",
         []))
  /\ (allowed -> (2 <= length names)%nat ->
      exists resp out pre w post,
        Api.compare pw exts request headers = (Api.Ok resp, out)
        /\ map Namecast.er_name (Api.results resp) = names
        /\ Api.results resp = (pre ++ w :: post)%list
        /\ Api.winner resp = Namecast.er_name w
        /\ Api.winner_score resp = Namecast.overall_score w
        /\ (forall y, In y pre ->
              (Namecast.overall_score y < Namecast.overall_score w)%Q)
        /\ (forall y, In y post ->
              (Namecast.overall_score y <= Namecast.overall_score w)%Q)).
Proof.
  cbv zeta. unfold Api.compare.
  destruct (check_password_cases pw headers) as [[Hok Hal]|[Hbad [Hpw Hne]]].
  - rewrite Hok. split; [tauto|]. split.
    + intros _ Hlen. apply Nat.ltb_lt in Hlen. rewrite Hlen. reflexivity.
    + intros _ Hlen. rewrite (proj2 (Nat.ltb_ge _ _) Hlen).
      destruct (evaluate_all_returns exts (Api.rq_names request)
                  (Api.rq_compare_mission request) 0)
        as (rs & out & Hall & Hnames).
      rewrite Hall. destruct rs as [|r rs].
      { rewrite <- Hnames in Hlen. simpl in Hlen. lia. }
      destruct (max_from_first_greatest Namecast.overall_score rs [] r [])
        as (pre & post & Heq & Hpre & Hpost).
      { intros y []. }
      { intros y []. }
      cbv zeta. eexists.
      exists out, pre, (Api.max_from Namecast.overall_score r rs), post.
      split; [reflexivity|]. cbn [Api.results Api.winner Api.winner_score].
      split; [exact Hnames|]. split; [exact Heq|].
      split; [reflexivity|]. split; [reflexivity|]. split; assumption.
  - rewrite Hbad.
    assert (Hnot : ~ (opt_truthy pw = false
                      \/ headers !! "X-API-Password" = pw)).
    { intros [H|H]; [congruence|contradiction]. }
    split; [reflexivity|]. split; intros H; contradiction.
Qed.

(** X19 at two responses, one of which finds the name memorable. *)
Lemma aggregate_responses_spec_witness :
  Perception._aggregate_responses elements sample_responses "Stripe" None
                                  sample_client
  = Return sample_analysis
  /\ Perception.persona_responses sample_analysis = sample_responses
  /\ (0 <= Perception.consensus_score sample_analysis <= 1)%Q
  /\ (Perception.pa_memorability sample_analysis = "high"
      <-> (4 * 2 <= 5 * 1)%nat)
  /\ (Perception.pa_memorability sample_analysis = "low"
      <-> (2 * 1 < 2)%nat)
  /\ In (Perception.pa_memorability sample_analysis)
        ["high"; "medium"; "low"]
  /\ (length (Perception.pa_industry_association sample_analysis) <= 4)%nat
  /\ List.NoDup (Perception.pa_industry_association sample_analysis)
  /\ (sample_responses ≠ [] ->
      forall i,
        In i (Perception.pa_industry_association sample_analysis) ->
        exists r, In r sample_responses /\ Perception.industry_guess r = i).
Proof.
  split; [reflexivity|].
  apply (aggregate_responses_spec elements
           (fun s => Permutation_refl (elements s))
           sample_responses "Stripe" None sample_client sample_analysis).
  reflexivity.
Defined.

(** X21 at an alignment reply without score, after Sarah and Maya answered. *)
Lemma analyze_perception_with_personas_witness :
  fst (analyze_perception {[ "ANTHROPIC_API_KEY" := "sk-test" ]}
                          (personas_oracle elements (Return sample_client))
                          "Stripe" (Some "payments"))
  = placeholder_perception (Some "payments").
Proof.
  assert (Henv : env_truthy {[ "ANTHROPIC_API_KEY" := "sk-test" ]}
                            "ANTHROPIC_API_KEY" = true)
    by (vm_compute; reflexivity).
  apply (proj2 (proj2 (analyze_perception_with_personas elements
                         {[ "ANTHROPIC_API_KEY" := "sk-test" ]}
                         sample_client "Stripe" (Some "payments")
                         Henv eq_refl))).
  - eexists. eexists. split; [left; reflexivity|reflexivity].
  - intros ev. eexists. reflexivity.
Defined.

(** X14 when every WHOIS call times out. *)
Lemma check_domains_spec_witness :
  (_calc_domain_score (check_domains (whois sample_collaborators) "Acme")
   == 100)%Q.
Proof.
  apply (proj2 (proj2 (check_domains_spec (whois sample_collaborators)
                                          "Acme"))).
  intros domain. eexists. reflexivity.
Defined.

(** X22 at a request without the configured password. *)
Lemma api_evaluate_spec_witness :
  Api.evaluate (Some "secret") sample_collaborators
               {| Api.rq_name := "Acme"; Api.rq_mission := None |} ∅
  = (Api.HTTPException 401 "Invalid API password", []).
Proof.
  apply (proj1 (proj2 (api_evaluate_spec (Some "secret") sample_collaborators
                         {| Api.rq_name := "Acme"; Api.rq_mission := None |}
                         ∅))).
  intros [H|H]; discriminate.
Defined.

(** X23 at two names, no password configured. *)
Lemma api_compare_spec_witness :
  exists resp out pre w post,
    Api.compare None (fun _ => sample_collaborators)
                {| Api.rq_names := ["Acme"; "Stripe"];
                   Api.rq_compare_mission := None |} ∅
    = (Api.Ok resp, out)
    /\ map Namecast.er_name (Api.results resp) = ["Acme"; "Stripe"]
    /\ Api.results resp = (pre ++ w :: post)%list
    /\ Api.winner resp = Namecast.er_name w
    /\ Api.winner_score resp = Namecast.overall_score w
    /\ (forall y, In y pre ->
          (Namecast.overall_score y < Namecast.overall_score w)%Q)
    /\ (forall y, In y post ->
          (Namecast.overall_score y <= Namecast.overall_score w)%Q).
Proof.
  apply (proj2 (proj2 (api_compare_spec None (fun _ => sample_collaborators)
                         {| Api.rq_names := ["Acme"; "Stripe"];
                            Api.rq_compare_mission := None |} ∅))).
  - left. reflexivity.
  - simpl. lia.
Defined.

(** ** International and similar-company sub-scores in general *)

(** X24.  For every international map the sub-score is 100 minus 20 per
    flagged language, floored at 0: it is 0 exactly when five or more
    languages are flagged, and 100 for the empty map. *)
Theorem calc_international_score_spec (international : gmap string intl_entry) :
  let issues := size (flagged international) in
  (_calc_international_score international
   == if (issues <? 5)%nat then 100 - 20 * Q_of_nat issues else 0)%Q
  /\ ((_calc_international_score international == 0)%Q <-> (5 <= issues)%nat)
  /\ (_calc_international_score ∅ == 100)%Q.
Proof.
  cbv zeta.
  assert (Hissues : size (flagged international)
            = length (filter (fun v => has_issue v = true)
                             (map snd (map_to_list international)))).
  { unfold flagged. rewrite size_filter_list, filter_vals_snd, length_map.
    reflexivity. }
  assert (Hscore : (_calc_international_score international
                    == if (size (flagged international) <? 5)%nat
                       then 100 - 20 * Q_of_nat (size (flagged international))
                       else 0)%Q).
  { unfold _calc_international_score.
    destruct (decide (international = ∅)) as [->|Hne].
    - vm_compute. reflexivity.
    - cbv zeta. rewrite <- Hissues.
      set (k := size (flagged international)).
      assert (Hk : (Q_of_nat k * 20 == 20 * inject_Z (Z.of_nat k))%Q)
        by (unfold Q_of_nat; ring).
      unfold Qmax.
      destruct (k <? 5)%nat eqn:E.
      + apply Nat.ltb_lt in E.
        assert (H0 : (0 <= 100 - Q_of_nat k * 20)%Q).
        { unfold Q_of_nat, Qle, Qminus, Qplus, Qopp, Qmult. simpl. lia. }
        destruct (Qle_bool (100 - Q_of_nat k * 20) 0) eqn:L.
        * apply Qle_bool_iff in L. unfold Q_of_nat in *. lra.
        * unfold Q_of_nat. ring.
      + apply Nat.ltb_ge in E.
        assert (H0 : (100 - Q_of_nat k * 20 <= 0)%Q).
        { unfold Q_of_nat, Qle, Qminus, Qplus, Qopp, Qmult. simpl. lia. }
        apply Qle_bool_iff in H0. rewrite H0. reflexivity. }
  split; [exact Hscore|]. split; [|vm_compute; reflexivity].
  rewrite Hscore. destruct (size (flagged international) <? 5)%nat eqn:E.
  - apply Nat.ltb_lt in E. split; [|lia]. intros H. exfalso.
    assert (Hpos : (0 < 100 - 20 * Q_of_nat (size (flagged international)))%Q).
    { unfold Q_of_nat, Qlt, Qminus, Qplus, Qopp, Qmult. simpl. lia. }
    rewrite H in Hpos. apply (Qlt_irrefl 0 Hpos).
  - apply Nat.ltb_ge in E. split; [intros _; exact E|reflexivity].
Qed.

(** X25.  The similar-company sub-score of the static pass is 100 exactly
    when no catalogue entry is similar enough to be listed, 20 exactly when
    some listed match scores above 0.8, 60 exactly when none does but some
    match scores above 0.6, and 85 in the remaining case. *)
Theorem static_similar_companies_score (nm : string) :
  let r := _find_similar_static nm in
  let s := _calc_similar_companies_score r in
  ((s == 100)%Q <-> matches r = [])
  /\ ((s == 20)%Q <-> some_above 0.8 (matches r))
  /\ ((s == 60)%Q
      <-> ~ some_above 0.8 (matches r) /\ some_above 0.6 (matches r))
  /\ ((s == 85)%Q
      <-> matches r ≠ [] /\ ~ some_above 0.6 (matches r)).
Proof.
  cbv zeta. unfold _calc_similar_companies_score, _find_similar_static.
  cbv zeta. cbn [matches confusion_risk].
  generalize (firstn 5 (sort_by_score_desc
                          (flat_map (static_candidate (lower nm))
                                    known_companies))).
  intros l0.
  destruct (static_confusion_risk_spec l0) as (Hhigh & Hmed & Hlow & Hnil).
  assert (H86 : some_above 0.8 l0 -> some_above 0.6 l0).
  { apply some_above_weaken. lra. }
  destruct l0 as [|m0 l1].
  - assert (N : forall t, ~ some_above t []) by (intros t [m [[] _]]).
    split; [split; reflexivity|].
    split; [split; [discriminate|intros H; exfalso; exact (N _ H)]|].
    split; [split; [discriminate|intros [_ H]; exfalso; exact (N _ H)]|].
    split; [discriminate|intros [H _]; contradiction].
  - cbv iota.
    assert (Hne : m0 :: l1 ≠ []) by discriminate.
    set (l := m0 :: l1) in *. clearbody l.
    destruct (String.eqb_spec (static_confusion_risk l) "high") as [Eh|Nh].
    + pose proof (proj1 Hhigh Eh) as H8.
      split; [split; [discriminate|contradiction]|].
      split; [split; [auto|reflexivity]|].
      split; [split; [discriminate|tauto]|].
      split; [discriminate|]. intros [_ N6]. exfalso. auto.
    + assert (N8 : ~ some_above 0.8 l) by (rewrite <- Hhigh; exact Nh).
      destruct (String.eqb_spec (static_confusion_risk l) "medium") as [Em|Nm].
      * pose proof (proj1 (Hmed N8) Em) as H6.
        split; [split; [discriminate|contradiction]|].
        split; [split; [discriminate|contradiction]|].
        split; [split; [auto|reflexivity]|].
        split; [discriminate|tauto].
      * assert (N6 : ~ some_above 0.6 l) by (rewrite <- (Hmed N8); exact Nm).
        split; [split; [discriminate|contradiction]|].
        split; [split; [discriminate|contradiction]|].
        split; [split; [discriminate|tauto]|].
        split; [auto|reflexivity].
Qed.
